(** * Verification of [blore/inference/zstatespy.py]

    [create] enumerates the causal configurations ("zstates") of a locus by
    a branch-and-bound search: level 0 (the empty state) and level 1 (the
    singletons) are always produced; afterwards the states of a level are
    scored, the best of them whose scores add up to more than [target] of
    the level's total become the leaders, and the leaders are extended by
    one SNP each to give the next level.

    The embedding follows the Python function statement by statement.

    - SNP indices, [nsnps], [cmax] and [norm] are Python integers: [Z].
    - A state is a Python list of integers: [list Z].
    - The scores are floating-point numbers in the program.  Here they are
      rationals with exact arithmetic ([Q]); rounding is outside the model.
      Rounding can change the value of the comparisons of lines 65 and 72;
      statements about what follows a comparison therefore take its value
      as a hypothesis, and statements that need exact sums say so.
    - Loading the native library (lines 37-45) and exceptions raised inside
      the scorer or inside the native routine are outside the model: the
      development describes the runs in which the library loads and every
      call of a collaborator returns.
    - The rows the routine returns are taken as they are written; line 107
      reads them back from a buffer of [maxnewsize] integers, which holds
      them whenever the routine writes no row twice.
    - The scorer [quasi_laplace.margloglik_zcomps] is an external module: it
      is a parameter of the development, together with the hyperparameters
      [pi, mu, sig2, vmin, mureg, sigreg2, precll], which [create] forwards
      unchanged and never inspects.
    - The native routine [create_zstates] of [lib/zstates.so] is called
      through ctypes.  [create] is parameterised by it; the flat [int32]
      buffers that cross the ctypes boundary are represented by the list of
      rows they encode.  A model of the routine, taken from the
      specification, is given separately ([create_zstates]).
    - Every call of the scorer is recorded in a trace, so that statements
      about "no scorer call" can be made.
    - Python exceptions are explicit outcomes. *)

From Stdlib Require Import List ZArith QArith Lia Bool Arith Permutation Sorted.
Import ListNotations.

Local Open Scope Z_scope.

(** ** Python and numpy primitives used by [create] *)

(** A state: the list of the non-zero column positions of one row. *)
Definition State := list Z.

(** [range(n)]: empty when [n <= 0]. *)
Definition range (n : Z) : list Z := map Z.of_nat (seq 0 (Z.to_nat n)).

(** [sorted(l)] on a list of integers (ascending). *)
Fixpoint insert_sorted (x : Z) (l : list Z) : list Z :=
  match l with
  | [] => [x]
  | y :: t => if x <=? y then x :: l else y :: insert_sorted x t
  end.

Definition sorted (l : list Z) : list Z := fold_right insert_sorted [] l.

(** [l[-n:]]: Python reads [-0] as [0], so the slice is the whole list when
    [n = 0]; it is also the whole list when [n] exceeds the length. *)
Definition slice_last {A : Type} (n : nat) (l : list A) : list A :=
  match n with
  | O => l
  | S _ => skipn (length l - n) l
  end.

(** Strict comparison of two scores, [x < y]. *)
Definition Qltb (x y : Q) : bool := (Qnum x * QDen y <? Qnum y * QDen x)%Z.

(** [np.sum]. *)
Definition np_sum (l : list Q) : Q := fold_left Qplus l 0%Q.

(** [np.cumsum]: the running sums, the first being the first element. *)
Fixpoint cumsum_from (acc : Q) (l : list Q) : list Q :=
  match l with
  | [] => []
  | x :: t => (acc + x)%Q :: cumsum_from (acc + x)%Q t
  end.

Definition np_cumsum (l : list Q) : list Q :=
  match l with
  | [] => []
  | x :: t => x :: cumsum_from x t
  end.

(** The sum of the first [k] elements: the quantity that position [k - 1]
    of [np.cumsum] holds ([np_cumsum_nth]). *)
Definition prefix_sum (k : nat) (l : list Q) : Q := np_sum (firstn k l).

(** [prob[idx]]: numpy indexing of an array by an array of indices.  The
    indices come from [np.argsort] and are always in range; the default is
    never read. *)
Definition take (prob : list Q) (idx : list nat) : list Q :=
  map (fun i => nth i prob 0%Q) idx.

(** [np.argsort(prob)]: the indices of [prob] in ascending order of value.
    numpy leaves the relative order of equal values to the sorting
    algorithm; the model is the stable order (insertion of each index before
    the first index whose value is not smaller). *)
Fixpoint insert_idx (prob : list Q) (i : nat) (l : list nat) : list nat :=
  match l with
  | [] => [i]
  | j :: t =>
      if Qle_bool (nth i prob 0%Q) (nth j prob 0%Q) then i :: l
      else j :: insert_idx prob i t
  end.

Definition np_argsort (prob : list Q) : list nat :=
  fold_right (insert_idx prob) [] (seq 0 (length prob)).

(** The indices [idx] list values of [prob] that never increase. *)
Definition decreasing (prob : list Q) (idx : list nat) : Prop :=
  StronglySorted (fun i j => nth j prob 0%Q <= nth i prob 0%Q)%Q idx.

(** [np.where(cum > targ)[0]]: the positions of [cum] holding a value
    strictly above [targ], in ascending order. *)
Fixpoint where_gt_from (i : nat) (cum : list Q) (targ : Q) : list nat :=
  match cum with
  | [] => []
  | c :: t =>
      if Qltb targ c then i :: where_gt_from (S i) t targ
      else where_gt_from (S i) t targ
  end.

Definition np_where_gt (cum : list Q) (targ : Q) : list nat :=
  where_gt_from 0 cum targ.

(** [np.sort] on an array of indices (ascending). *)
Fixpoint insert_nat (x : nat) (l : list nat) : list nat :=
  match l with
  | [] => [x]
  | y :: t => if (x <=? y)%nat then x :: l else y :: insert_nat x t
  end.

Definition np_sort (l : list nat) : list nat := fold_right insert_nat [] l.

(** ** Outcomes *)

Inductive exn : Type :=
| IndexError   (* list index out of range *)
| ValueError.  (* numpy refuses a shape or a negative dimension *)

Inductive outcome : Type :=
| Returned (zstates : list State)
| Raised (e : exn).

(** The arguments of the scorer calls made so far, the latest first. *)
Definition trace := list (list State).

(** ** The selection step (lines 69-83)

    [None] is the [break] of line 78; [Some sel] is the array [sel] after
    line 82, whose length is [nsel] (line 83). *)
Definition select (prob : list Q) (probsum target : Q) : option (list nat) :=
  let sort := rev (np_argsort prob) in
  let cum := np_cumsum (take prob sort) in
  let targ := (probsum * target)%Q in
  match np_where_gt cum targ with
  | [] => None
  | n0 :: _ =>
      let nsel := S n0 in
      let sel := firstn nsel sort in
      Some (np_sort sel)
  end.

(** Line 90, [[oldk[sel[i]] for i in range(nsel)]]: the comprehension
    raises [IndexError] at the first index outside [oldk] ([None]). *)
Fixpoint take_leaders (oldk : list State) (sel : list nat)
  : option (list State) :=
  match sel with
  | [] => Some []
  | i :: t =>
      match nth_error oldk i with
      | None => None
      | Some s =>
          match take_leaders oldk t with
          | None => None
          | Some r => Some (s :: r)
          end
      end
  end.

(** ** The loop of [create] *)

(** The variables carried by the [while] loop, and the trace. *)
Record loop_state : Type := mkLoop {
  zstates     : list State;
  oldk        : list State;
  prob        : list Q;
  probsum     : Q;
  old_probsum : Q;
  norm        : Z;
  calls       : trace
}.

Inductive step_result : Type :=
| Continue (st : loop_state)
| Break
| Raise (e : exn).

Section Create.

(** The opaque hyperparameters and the two collaborators. *)
Variable hyper : Type.
Variable margloglik_zcomps : hyper -> list State -> list Q.
(** [zcreate nsel k nsnps leadk]: the rows written by the native routine
    for [nsel] leaders of [k] items each over [nsnps] SNPs. *)
Variable zcreate : Z -> Z -> Z -> list State -> list State.

(** The stopping check of line 65. *)
Definition stopping_check (target : Q) (st : loop_state) : bool :=
  Qltb (probsum st) ((1 - target) * old_probsum st)%Q.

(** One iteration of the loop body (lines 65-118), entered with
    [norm < cmax]. *)
Definition body (nsnps : Z) (target : Q) (hp : hyper) (st : loop_state)
  : step_result :=
  if stopping_check target st then Break
  else
    let norm' := norm st + 1 in
    match select (prob st) (probsum st) target with
    | None => Break
    | Some sel =>
        let nsel := Z.of_nat (length sel) in
        match take_leaders (oldk st) sel with
        | None => Raise IndexError
        | Some leadk =>
            (* line 102: the leaders must form an nsel x (norm-1) array *)
            if negb (forallb (fun l => Z.of_nat (length l) =? norm' - 1) leadk)
            then Raise ValueError
            else
              (* lines 103-104: np.zeros refuses a negative size *)
              let maxnewsize := nsel * (nsnps - norm' + 1) * norm' in
              if maxnewsize <? 0 then Raise ValueError
              else
                let result := zcreate nsel (norm' - 1) nsnps leadk in
                let newk := map sorted result in
                let zstates' := zstates st ++ newk in
                let posterior := margloglik_zcomps hp zstates' in
                let prob' := slice_last (length newk) posterior in
                Continue {| zstates := zstates';
                            oldk := newk;
                            prob := prob';
                            probsum := np_sum prob';
                            old_probsum := probsum st;
                            norm := norm';
                            calls := zstates' :: calls st |}
        end
    end.

(** [while norm < cmax: ...] followed by [return zstates].  The loop is
    run for at most [fuel] iterations; [None] means that the fuel ran out
    ([while_loop_total] shows that [cmax - norm] iterations suffice). *)
Fixpoint while_loop (nsnps cmax : Z) (target : Q) (hp : hyper)
         (fuel : nat) (st : loop_state) : option (outcome * trace) :=
  if norm st <? cmax then
    match fuel with
    | O => None
    | S fuel' =>
        match body nsnps target hp st with
        | Continue st' => while_loop nsnps cmax target hp fuel' st'
        | Break => Some (Returned (zstates st), calls st)
        | Raise e => Some (Raised e, calls st)
        end
    end
  else Some (Returned (zstates st), calls st).

(** Level 1: [[i] for i in range(nsnps)]. *)
Definition singletons (nsnps : Z) : list State :=
  map (fun i => [i]) (range nsnps).

(** The program state after lines 48-62 when [cmax > 1]; [posterior[0]]
    raises [IndexError] on an empty answer of the scorer ([None]). *)
Definition init (nsnps : Z) (hp : hyper) : option loop_state :=
  let newk := singletons nsnps in
  let zstates0 := [[]] ++ newk in
  let posterior := margloglik_zcomps hp zstates0 in
  let prob0 := slice_last (length newk) posterior in
  match posterior with
  | [] => None
  | p0 :: _ =>
      Some {| zstates := zstates0;
              oldk := newk;
              prob := prob0;
              probsum := np_sum prob0;
              old_probsum := p0;
              norm := 1;
              calls := [zstates0] |}
  end.

(** [create(nsnps, cmax, target, pi, ..., precll, is_covariate)].  When
    [cmax <= 1] the loop variables [oldk], [prob], [probsum] and
    [old_probsum] are never assigned, and the test [1 < cmax] of the loop
    fails at once: [zstates] is returned as initialised. *)
Definition create (nsnps cmax : Z) (target : Q) (hp : hyper)
           (is_covariate : bool) : option (outcome * trace) :=
  if negb is_covariate then
    let zstates0 := [[]] ++ singletons nsnps in
    if cmax >? 1 then
      match init nsnps hp with
      | None => Some (Raised IndexError, [zstates0])
      | Some st => while_loop nsnps cmax target hp (Z.to_nat (cmax - 1)) st
      end
    else Some (Returned zstates0, [])
  else Some (Returned [range nsnps], []).

(** The loop states a run of [create] goes through, each with the levels
    generated up to it (level 0 first). *)
Inductive reach (nsnps cmax : Z) (target : Q) (hp : hyper)
  : list (list State) -> loop_state -> Prop :=
| reach_init st :
    init nsnps hp = Some st ->
    reach nsnps cmax target hp [[[]]; singletons nsnps] st
| reach_step levels st st' :
    reach nsnps cmax target hp levels st ->
    (norm st <? cmax) = true ->
    body nsnps target hp st = Continue st' ->
    reach nsnps cmax target hp (levels ++ [oldk st']) st'.

End Create.

(** ** The native expansion routine *)

(** A canonical state over [nsnps] SNPs: strictly increasing items of
    [[0, nsnps)]. *)
Inductive increasing : list Z -> Prop :=
| incr_nil : increasing []
| incr_one x : increasing [x]
| incr_cons x y l : x < y -> increasing (y :: l) -> increasing (x :: y :: l).

Definition canonical (nsnps : Z) (s : State) : Prop :=
  increasing s /\ Forall (fun x => 0 <= x < nsnps) s.

Definition state_eqb (a b : State) : bool :=
  if list_eq_dec Z.eq_dec a b then true else false.

Definition memZ (x : Z) (l : list Z) : bool := existsb (Z.eqb x) l.

(** The candidates of one leader: the leader with one more item, for every
    item of the universe that it does not hold, in ascending item order. *)
Definition candidates (nsnps : Z) (lead : State) : list State :=
  map (fun item => insert_sorted item lead)
      (filter (fun item => negb (memZ item lead)) (range nsnps)).

(** Emission without repetition: a candidate is written unless an equal one
    was written before ([seen]). *)
Fixpoint emit (seen : list State) (cands : list State) : list State :=
  match cands with
  | [] => []
  | c :: t =>
      if existsb (state_eqb c) seen then emit seen t
      else c :: emit (c :: seen) t
  end.

(** Modelled from the spec: the native routine [create_zstates] of
    [lib/zstates.so], which [create] calls through ctypes and whose source
    is not part of the Python module.  Following section 4.3 step 5 and
    section 4.4 of the specification and the comment of lines 92-98: the
    leaders are processed in order, the first yields all its candidates,
    each later one only the candidates not yet produced.  [nsel] and [k]
    describe the shape of the leader array. *)
Definition create_zstates (nsel k nsnps : Z) (leadk : list State)
  : list State :=
  emit [] (flat_map (candidates nsnps) leadk).

(** The contract of section 4.4 for an expansion routine as [create] uses
    it (rows sorted by line 108): on canonical leaders of [m] items it
    yields exactly the canonical one-item extensions of the leaders. *)
Definition extension_of (nsnps : Z) (leaders : list State) (s : State) : Prop :=
  exists lead item,
    In lead leaders /\ (0 <= item < nsnps) /\ ~ In item lead /\
    increasing s /\ (forall x, In x s <-> x = item \/ In x lead).

Definition expansion_contract
           (zc : Z -> Z -> Z -> list State -> list State) : Prop :=
  forall nsnps leaders,
    Forall (canonical nsnps) leaders ->
    forall nsel k s,
      In s (map sorted (zc nsel k nsnps leaders)) <->
      extension_of nsnps leaders s.


(** The other half of the contract of section 4.4: on canonical leaders no
    row is written twice. *)
Definition emits_once (zc : Z -> Z -> Z -> list State -> list State) : Prop :=
  forall nsnps leaders,
    Forall (canonical nsnps) leaders ->
    forall nsel k, NoDup (map sorted (zc nsel k nsnps leaders)).

(** The scorer calls of a run that has generated [levels]: one call for
    each level from level 1 on, on all the levels generated up to it, the
    latest call first. *)
Definition call_history (levels : list (list State)) : trace :=
  map (fun k => concat (firstn k levels)) (rev (seq 2 (length levels - 1))).

(** ** Concrete scorers used in the examples *)

(** Every state scores 1. *)
Definition score_one (_ : unit) (zs : list State) : list Q :=
  map (fun _ => 1%Q) zs.

(** Every state scores 0. *)
Definition score_zero (_ : unit) (zs : list State) : list Q :=
  map (fun _ => 0%Q) zs.

(** States of at most one item score 1, larger ones 0. *)
Definition score_upto1 (_ : unit) (zs : list State) : list Q :=
  map (fun s => if (length s <=? 1)%nat then 1%Q else 0%Q) zs.

(** The run of [create] on 4 SNPs with [score_upto1] and [target = 0.98]:
    the state after lines 48-62 and the state after the first iteration. *)
Definition upto1_level1 : loop_state :=
  Eval vm_compute in
    match init unit score_upto1 4 tt with
    | Some st => st
    | None => mkLoop [] [] [] 0 0 0 []
    end.

Definition upto1_level2 : loop_state :=
  Eval vm_compute in
    match body unit score_upto1 create_zstates 4 (49 # 50) tt upto1_level1 with
    | Continue st => st
    | _ => upto1_level1
    end.

(** ** The docstring's example (lines 22-31) *)

Example docstring_level2 :
  map sorted (create_zstates 2 1 4 [[1]; [3]])
  = [[0; 1]; [1; 2]; [1; 3]; [0; 3]; [2; 3]].
Proof. reflexivity. Qed.

Example docstring_level3 :
  map sorted (create_zstates 2 2 4 [[0; 1]; [1; 3]])
  = [[0; 1; 2]; [0; 1; 3]; [1; 2; 3]].
Proof. reflexivity. Qed.

(** ** Sorting integers, canonical states *)

Lemma In_insert_sorted (a x : Z) (l : list Z) :
  In x (insert_sorted a l) <-> x = a \/ In x l.
Proof.
  induction l as [|y t IH]; simpl.
  - intuition.
  - destruct (a <=? y); simpl; rewrite ?IH; intuition.
Qed.

Lemma length_insert_sorted (a : Z) (l : list Z) :
  length (insert_sorted a l) = S (length l).
Proof.
  induction l as [|y t IH]; simpl; [reflexivity|].
  destruct (a <=? y); simpl; congruence.
Qed.

Lemma increasing_tail (x : Z) (l : list Z) :
  increasing (x :: l) -> increasing l.
Proof. inversion 1; subst; [constructor | assumption]. Qed.

Lemma increasing_head_lt (x : Z) (l : list Z) :
  increasing (x :: l) -> Forall (fun y => x < y) l.
Proof.
  revert x; induction l as [|y t IH]; intros x H; [constructor|].
  inversion H; subst. constructor; [assumption|].
  apply IH in H4. eapply Forall_impl; [|exact H4]. simpl; intros; lia.
Qed.

Lemma increasing_cons (x : Z) (l : list Z) :
  Forall (fun y => x < y) l -> increasing l -> increasing (x :: l).
Proof.
  destruct l as [|y t]; intros HF HI; [constructor|].
  inversion HF; subst. constructor; assumption.
Qed.

Lemma increasing_NoDup (l : list Z) : increasing l -> NoDup l.
Proof.
  induction l as [|x t IH]; intros H; constructor.
  - intros Hin. pose proof (increasing_head_lt _ _ H) as HF.
    rewrite Forall_forall in HF. specialize (HF _ Hin). lia.
  - apply IH. eapply increasing_tail; eassumption.
Qed.

Lemma increasing_insert_sorted (a : Z) (l : list Z) :
  increasing l -> ~ In a l -> increasing (insert_sorted a l).
Proof.
  induction l as [|y t IH]; intros HI Hn; simpl; [constructor|].
  destruct (Z.leb_spec a y) as [Hle|Hgt].
  - assert (a <> y) by (intros ->; apply Hn; left; reflexivity).
    constructor; [lia | assumption].
  - apply increasing_cons.
    + rewrite Forall_forall. intros z Hz. apply In_insert_sorted in Hz.
      destruct Hz as [->|Hz]; [lia|].
      pose proof (increasing_head_lt _ _ HI) as HF.
      rewrite Forall_forall in HF. apply HF; assumption.
    + apply IH; [eapply increasing_tail; eassumption|].
      intros Hin; apply Hn; right; assumption.
Qed.

(** [sorted] leaves a canonical row as it is. *)
Lemma sorted_increasing (l : list Z) : increasing l -> sorted l = l.
Proof.
  induction l as [|x t IH]; intros H; [reflexivity|].
  unfold sorted in *; simpl. rewrite IH by (eapply increasing_tail; eassumption).
  destruct t as [|y t']; [reflexivity|].
  inversion H; subst. simpl.
  destruct (Z.leb_spec x y); [reflexivity | lia].
Qed.

Lemma In_sorted (x : Z) (l : list Z) : In x (sorted l) <-> In x l.
Proof.
  induction l as [|y t IH]; simpl; [tauto|].
  unfold sorted in *; simpl. rewrite In_insert_sorted, IH. intuition.
Qed.

(** Two strictly increasing lists with the same items are the same list. *)
Lemma increasing_ext (l1 l2 : list Z) :
  increasing l1 -> increasing l2 ->
  (forall x, In x l1 <-> In x l2) -> l1 = l2.
Proof.
  revert l2; induction l1 as [|a t1 IH]; intros l2 H1 H2 Hext.
  - destruct l2 as [|b t2]; [reflexivity|].
    exfalso. apply (proj2 (Hext b)). left; reflexivity.
  - destruct l2 as [|b t2].
    + exfalso. apply (proj1 (Hext a)). left; reflexivity.
    + pose proof (increasing_head_lt _ _ H1) as F1.
      pose proof (increasing_head_lt _ _ H2) as F2.
      rewrite Forall_forall in F1, F2.
      assert (a = b) as ->.
      { destruct (proj1 (Hext a) (or_introl eq_refl)) as [E|Hin]; [congruence|].
        destruct (proj2 (Hext b) (or_introl eq_refl)) as [E|Hin']; [congruence|].
        specialize (F1 _ Hin'). specialize (F2 _ Hin). lia. }
      f_equal. apply IH.
      * eapply increasing_tail; eassumption.
      * eapply increasing_tail; eassumption.
      * intros x; split; intros Hx.
        -- destruct (proj1 (Hext x) (or_intror Hx)) as [E|Hin]; [|assumption].
           subst x. specialize (F1 _ Hx). lia.
        -- destruct (proj2 (Hext x) (or_intror Hx)) as [E|Hin]; [|assumption].
           subst x. specialize (F2 _ Hx). lia.
Qed.

Lemma In_range (n x : Z) : In x (range n) <-> 0 <= x < n.
Proof.
  unfold range. rewrite in_map_iff. split.
  - intros [k [<- Hk]]. apply in_seq in Hk. lia.
  - intros H. exists (Z.to_nat x). split; [lia|]. apply in_seq. lia.
Qed.

Lemma length_range (n : Z) : length (range n) = Z.to_nat n.
Proof. unfold range. rewrite length_map, length_seq. reflexivity. Qed.

Lemma memZ_In (x : Z) (l : list Z) : memZ x l = true <-> In x l.
Proof.
  unfold memZ. rewrite existsb_exists. split.
  - intros [y [Hy E]]. apply Z.eqb_eq in E. subst; assumption.
  - intros H. exists x. split; [assumption | apply Z.eqb_refl].
Qed.

Lemma state_eqb_eq (a b : State) : state_eqb a b = true <-> a = b.
Proof.
  unfold state_eqb. destruct (list_eq_dec Z.eq_dec a b); split; congruence.
Qed.

(** ** The expansion routine *)

Lemma In_candidates (nsnps : Z) (lead s : State) :
  In s (candidates nsnps lead) <->
  exists item, 0 <= item < nsnps /\ ~ In item lead /\ s = insert_sorted item lead.
Proof.
  unfold candidates. rewrite in_map_iff. split.
  - intros [item [<- Hf]]. apply filter_In in Hf. destruct Hf as [Hr Hm].
    exists item. rewrite In_range in Hr. repeat split; try lia.
    intros Hin. apply memZ_In in Hin. rewrite Hin in Hm. discriminate.
  - intros [item [Hr [Hn ->]]]. exists item. split; [reflexivity|].
    apply filter_In. split; [apply In_range; assumption|].
    destruct (memZ item lead) eqn:E; [|reflexivity].
    apply memZ_In in E. contradiction.
Qed.

Lemma seen_spec (c : State) (seen : list State) :
  existsb (state_eqb c) seen = true <-> In c seen.
Proof.
  rewrite existsb_exists. split.
  - intros [y [Hy E]]. apply state_eqb_eq in E. subst; assumption.
  - intros H. exists c. split; [assumption | apply state_eqb_eq; reflexivity].
Qed.

Lemma In_emit (seen cands : list State) (s : State) :
  In s (emit seen cands) <-> In s cands /\ ~ In s seen.
Proof.
  revert seen; induction cands as [|c t IH]; intros seen; simpl; [tauto|].
  destruct (existsb (state_eqb c) seen) eqn:E.
  - apply seen_spec in E. rewrite IH. split.
    + intros [H1 H2]; auto.
    + intros [[->|H1] H2]; [contradiction | auto].
  - assert (~ In c seen) as Hc.
    { intros H. apply seen_spec in H. congruence. }
    simpl. rewrite IH. simpl. split.
    + intros [<-|[H1 H2]]; [auto|]. split; [auto|]. intros H; apply H2; auto.
    + intros [[->|H1] H2]; [auto|].
      destruct (list_eq_dec Z.eq_dec c s) as [->|Hne]; [auto|].
      right. split; [assumption|]. intros [H|H]; contradiction.
Qed.

Lemma NoDup_emit (seen cands : list State) : NoDup (emit seen cands).
Proof.
  revert seen; induction cands as [|c t IH]; intros seen; simpl; [constructor|].
  destruct (existsb (state_eqb c) seen); [apply IH|].
  constructor; [|apply IH].
  intros H. apply In_emit in H. destruct H as [_ H]. apply H. left; reflexivity.
Qed.

Lemma canonical_insert (nsnps item : Z) (lead : State) :
  canonical nsnps lead -> 0 <= item < nsnps -> ~ In item lead ->
  canonical nsnps (insert_sorted item lead).
Proof.
  intros [HI HF] Hr Hn. split; [apply increasing_insert_sorted; assumption|].
  rewrite Forall_forall in *. intros x Hx. apply In_insert_sorted in Hx.
  destruct Hx as [->|Hx]; [assumption | apply HF; assumption].
Qed.

(** Every row written by the model is a canonical one-item extension of a
    leader, and every such extension is written. *)
Lemma In_create_zstates (nsel k nsnps : Z) (leaders : list State) (s : State) :
  Forall (canonical nsnps) leaders ->
  (In s (create_zstates nsel k nsnps leaders) <->
   exists lead item, In lead leaders /\ (0 <= item < nsnps) /\ ~ In item lead /\
                     s = insert_sorted item lead).
Proof.
  intros HF. unfold create_zstates. rewrite In_emit, in_flat_map. split.
  - intros [[lead [Hl Hc]] _]. apply In_candidates in Hc.
    destruct Hc as [item [? [? ?]]]. exists lead, item. auto.
  - intros [lead [item [Hl [Hr [Hn ->]]]]]. split; [|intros []].
    exists lead. split; [assumption|]. apply In_candidates. exists item. auto.
Qed.

Lemma create_zstates_rows_canonical (nsel k nsnps : Z) (leaders : list State) :
  Forall (canonical nsnps) leaders ->
  Forall (canonical nsnps) (create_zstates nsel k nsnps leaders).
Proof.
  intros HF. rewrite Forall_forall. intros s Hs.
  apply In_create_zstates in Hs; [|assumption].
  destruct Hs as [lead [item [Hl [Hr [Hn ->]]]]].
  rewrite Forall_forall in HF. apply canonical_insert; auto.
Qed.

Lemma map_sorted_canonical (nsnps : Z) (rows : list State) :
  Forall (canonical nsnps) rows -> map sorted rows = rows.
Proof.
  induction 1 as [|r t [Hr _] _ IH]; simpl; [reflexivity|].
  rewrite IH, sorted_increasing by assumption. reflexivity.
Qed.

Lemma extension_insert (nsnps : Z) (leaders : list State) (s : State) :
  Forall (canonical nsnps) leaders ->
  (extension_of nsnps leaders s <->
   exists lead item, In lead leaders /\ (0 <= item < nsnps) /\ ~ In item lead /\
                     s = insert_sorted item lead).
Proof.
  intros HF. rewrite Forall_forall in HF. split.
  - intros [lead [item [Hl [Hr [Hn [Hi Hx]]]]]]. exists lead, item.
    repeat split; try assumption; try lia.
    apply increasing_ext; [assumption| |].
    + apply increasing_insert_sorted; [apply HF; assumption | assumption].
    + intros x. rewrite Hx, In_insert_sorted. tauto.
  - intros [lead [item [Hl [Hr [Hn ->]]]]]. exists lead, item.
    repeat split; try assumption; try lia.
    + apply increasing_insert_sorted; [apply HF; assumption | assumption].
    + apply In_insert_sorted.
    + apply In_insert_sorted.
Qed.

(** The model of the native routine meets the contract of section 4.4. *)
Lemma create_zstates_contract : expansion_contract create_zstates.
Proof.
  intros nsnps leaders HF nsel k s.
  rewrite (map_sorted_canonical nsnps)
    by (apply create_zstates_rows_canonical; assumption).
  rewrite In_create_zstates, extension_insert by assumption. tauto.
Qed.

(** C1.  For leaders that are canonical states of norm [m] over [nsnps]
    SNPs, the expansion step (the native routine followed by the [sorted] of
    line 108) emits exactly the set of the one-item extensions
    leader + {item}, item in the universe and not in the leader: every
    emitted state is such an extension and every extension is emitted; no
    state is emitted twice, even as a set; and every emitted state is
    canonical, of norm [m + 1]. *)
Theorem expansion_emits_each_candidate_once
        (nsnps nsel k : Z) (m : nat) (leaders : list State) :
  Forall (canonical nsnps) leaders ->
  Forall (fun l => length l = m) leaders ->
  (forall s, In s (map sorted (create_zstates nsel k nsnps leaders)) <->
             extension_of nsnps leaders s) /\
  NoDup (map sorted (create_zstates nsel k nsnps leaders)) /\
  (forall i j s1 s2,
      nth_error (map sorted (create_zstates nsel k nsnps leaders)) i = Some s1 ->
      nth_error (map sorted (create_zstates nsel k nsnps leaders)) j = Some s2 ->
      (forall x, In x s1 <-> In x s2) -> i = j) /\
  Forall (fun s => canonical nsnps s /\ length s = S m)
         (map sorted (create_zstates nsel k nsnps leaders)).
Proof.
  intros HC HL.
  pose proof (create_zstates_rows_canonical nsel k nsnps leaders HC) as Hrows.
  rewrite (map_sorted_canonical nsnps) by assumption.
  assert (NoDup (create_zstates nsel k nsnps leaders)) as Hnd
      by apply NoDup_emit.
  split; [|split; [assumption|split]].
  - intros s. rewrite <- (map_sorted_canonical nsnps _ Hrows).
    apply create_zstates_contract; assumption.
  - intros i j s1 s2 Hi Hj Hext.
    assert (s1 = s2) as ->.
    { rewrite Forall_forall in Hrows.
      apply increasing_ext; [| |assumption].
      - apply (Hrows s1). eapply nth_error_In; eassumption.
      - apply (Hrows s2). eapply nth_error_In; eassumption. }
    rewrite NoDup_nth_error in Hnd. apply (Hnd i j).
    + apply nth_error_Some. intros E.
      pose proof (eq_trans (eq_sym E) Hi) as E'. discriminate E'.
    + exact (eq_trans Hi (eq_sym Hj)).
  - rewrite Forall_forall in *. intros s Hs. split; [apply Hrows; assumption|].
    apply In_create_zstates in Hs; [|rewrite Forall_forall; assumption].
    destruct Hs as [lead [item [Hl [_ [_ ->]]]]].
    rewrite length_insert_sorted, (HL _ Hl). reflexivity.
Qed.

Lemma expansion_emits_each_candidate_once_witness :
  (forall s, In s (map sorted (create_zstates 2 1 4 [[1]; [3]])) <->
             extension_of 4 [[1]; [3]] s) /\
  NoDup (map sorted (create_zstates 2 1 4 [[1]; [3]])) /\
  (forall i j s1 s2,
      nth_error (map sorted (create_zstates 2 1 4 [[1]; [3]])) i = Some s1 ->
      nth_error (map sorted (create_zstates 2 1 4 [[1]; [3]])) j = Some s2 ->
      (forall x, In x s1 <-> In x s2) -> i = j) /\
  Forall (fun s => canonical 4 s /\ length s = 2%nat)
         (map sorted (create_zstates 2 1 4 [[1]; [3]])).
Proof.
  apply (expansion_emits_each_candidate_once 4 2 1 1%nat [[1]; [3]]).
  - repeat constructor; lia.
  - repeat constructor.
Defined.

(** ** Scores: comparison, sums and running sums *)

Lemma Qltb_lt (x y : Q) : Qltb x y = true <-> (x < y)%Q.
Proof. unfold Qltb, Qlt. apply Z.ltb_lt. Qed.

Lemma Qltb_ge (x y : Q) : Qltb x y = false <-> (y <= x)%Q.
Proof. unfold Qltb, Qle. rewrite Z.ltb_ge. reflexivity. Qed.

Lemma np_sum_from (l : list Q) (a : Q) :
  (fold_left Qplus l a == a + np_sum l)%Q.
Proof.
  unfold np_sum. revert a; induction l as [|x t IH]; intros a; simpl.
  - ring.
  - rewrite IH, (IH (0 + x)%Q). ring.
Qed.

Lemma np_sum_cons (x : Q) (l : list Q) : (np_sum (x :: l) == x + np_sum l)%Q.
Proof. unfold np_sum at 1. simpl. rewrite np_sum_from. ring. Qed.

Lemma np_sum_app (l1 l2 : list Q) :
  (np_sum (l1 ++ l2) == np_sum l1 + np_sum l2)%Q.
Proof.
  induction l1 as [|x t IH]; simpl.
  - unfold np_sum at 2. simpl. ring.
  - rewrite !np_sum_cons, IH. ring.
Qed.

Lemma np_sum_nonneg (l : list Q) :
  Forall (fun x => 0 <= x)%Q l -> (0 <= np_sum l)%Q.
Proof.
  induction 1 as [|x t Hx _ IH].
  - unfold np_sum; simpl. apply Qle_refl.
  - rewrite np_sum_cons.
    apply (Qle_trans _ (0 + 0)%Q); [apply Qle_refl | apply Qplus_le_compat; assumption].
Qed.

Lemma np_sum_Permutation (l1 l2 : list Q) :
  Permutation l1 l2 -> (np_sum l1 == np_sum l2)%Q.
Proof.
  induction 1 as [|x l1 l2 _ IH|x y l|l1 l2 l3 _ IH1 _ IH2].
  - reflexivity.
  - rewrite !np_sum_cons, IH. reflexivity.
  - rewrite !np_sum_cons. ring.
  - rewrite IH1. exact IH2.
Qed.

Lemma length_cumsum_from (acc : Q) (l : list Q) :
  length (cumsum_from acc l) = length l.
Proof. revert acc; induction l; intros; simpl; congruence. Qed.

Lemma length_np_cumsum (l : list Q) : length (np_cumsum l) = length l.
Proof. destruct l; simpl; [|rewrite length_cumsum_from]; reflexivity. Qed.

Lemma cumsum_from_nth (l : list Q) (acc : Q) (k : nat) (c : Q) :
  nth_error (cumsum_from acc l) k = Some c ->
  (c == acc + prefix_sum (S k) l)%Q.
Proof.
  unfold prefix_sum.
  revert acc k; induction l as [|x t IH]; intros acc k H.
  - destruct k; discriminate.
  - destruct k as [|k']; simpl in H.
    + injection H as <-. simpl. rewrite np_sum_cons.
      unfold np_sum; simpl. ring.
    + apply IH in H. rewrite H.
      change (firstn (S (S k')) (x :: t)) with (x :: firstn (S k') t).
      rewrite np_sum_cons. ring.
Qed.

(** Position [k] of [np.cumsum(l)] is the sum of the first [k + 1]
    elements of [l]. *)
Lemma np_cumsum_nth (l : list Q) (k : nat) (c : Q) :
  nth_error (np_cumsum l) k = Some c -> (c == prefix_sum (S k) l)%Q.
Proof.
  destruct l as [|x t]; [destruct k; discriminate|].
  destruct k as [|k']; simpl; intros H.
  - injection H as <-. unfold prefix_sum. simpl.
    rewrite np_sum_cons. unfold np_sum; simpl. ring.
  - apply cumsum_from_nth in H. rewrite H. unfold prefix_sum.
    change (firstn (S (S k')) (x :: t)) with (x :: firstn (S k') t).
    rewrite np_sum_cons. reflexivity.
Qed.

Lemma where_gt_from_head (cum : list Q) (targ : Q) (i n0 : nat) (r : list nat) :
  where_gt_from i cum targ = n0 :: r ->
  exists k c,
    n0 = (i + k)%nat /\ nth_error cum k = Some c /\ Qltb targ c = true /\
    forall k' c', (k' < k)%nat -> nth_error cum k' = Some c' ->
                  Qltb targ c' = false.
Proof.
  revert i; induction cum as [|c t IH]; intros i H; simpl in H; [discriminate|].
  destruct (Qltb targ c) eqn:E.
  - injection H as <- _. exists O, c. repeat split; [lia | assumption |].
    intros k' c' Hk; lia.
  - apply IH in H. destruct H as [k [c0 [-> [Hn [Hlt Hmin]]]]].
    exists (S k), c0. repeat split; [lia | assumption | assumption |].
    intros [|k'] c' Hk Hc; simpl in Hc.
    + injection Hc as <-. assumption.
    + eapply Hmin; [|eassumption]. lia.
Qed.

Lemma where_gt_from_nil (cum : list Q) (targ : Q) (i : nat) :
  where_gt_from i cum targ = [] <->
  (forall k c, nth_error cum k = Some c -> Qltb targ c = false).
Proof.
  revert i; induction cum as [|c t IH]; intros i; simpl.
  - split; [|reflexivity]. intros _ [|k] c0 H; discriminate.
  - destruct (Qltb targ c) eqn:E.
    + split; [discriminate|]. intros H. specialize (H O c eq_refl). congruence.
    + rewrite IH. split.
      * intros H [|k] c0 Hc; simpl in Hc; [congruence | eapply H; eassumption].
      * intros H k c0 Hc. apply (H (S k)). exact Hc.
Qed.

(** ** [np.argsort] and [np.sort] *)

Lemma insert_idx_perm (prob : list Q) (i : nat) (l : list nat) :
  Permutation (insert_idx prob i l) (i :: l).
Proof.
  induction l as [|j t IH]; simpl; [reflexivity|].
  destruct (Qle_bool _ _); [reflexivity|].
  rewrite IH. apply perm_swap.
Qed.

Lemma fold_insert_idx_perm (prob : list Q) (idx : list nat) :
  Permutation (fold_right (insert_idx prob) [] idx) idx.
Proof.
  induction idx as [|i t IH]; simpl; [reflexivity|].
  rewrite insert_idx_perm. constructor. exact IH.
Qed.

Lemma np_argsort_perm (prob : list Q) :
  Permutation (np_argsort prob) (seq 0 (length prob)).
Proof. apply fold_insert_idx_perm. Qed.

Lemma insert_idx_sorted (prob : list Q) (i : nat) (l : list nat) :
  StronglySorted (fun a b => nth a prob 0 <= nth b prob 0)%Q l ->
  StronglySorted (fun a b => nth a prob 0 <= nth b prob 0)%Q (insert_idx prob i l).
Proof.
  induction 1 as [|j t Hs IH Hj]; simpl.
  - constructor; constructor.
  - destruct (Qle_bool (nth i prob 0%Q) (nth j prob 0%Q)) eqn:E.
    + apply Qle_bool_iff in E.
      constructor; [constructor; assumption|].
      constructor; [assumption|].
      eapply Forall_impl; [|exact Hj]. simpl. intros x Hx.
      eapply Qle_trans; eassumption.
    + assert (nth j prob 0 <= nth i prob 0)%Q as Hji.
      { destruct (Qlt_le_dec (nth j prob 0%Q) (nth i prob 0%Q)) as [H|H].
        - apply Qlt_le_weak; assumption.
        - apply Qle_bool_iff in H. congruence. }
      constructor; [assumption|].
      rewrite Forall_forall in *. intros x Hx.
      apply (Permutation_in _ (insert_idx_perm prob i t)) in Hx.
      destruct Hx as [<-|Hx]; [assumption | apply Hj; assumption].
Qed.

Lemma np_argsort_sorted (prob : list Q) :
  StronglySorted (fun a b => nth a prob 0 <= nth b prob 0)%Q (np_argsort prob).
Proof.
  unfold np_argsort. induction (seq 0 (length prob)) as [|i t IH]; simpl.
  - constructor.
  - apply insert_idx_sorted. exact IH.
Qed.

Lemma StronglySorted_snoc {A : Type} (R : A -> A -> Prop) (l : list A) (x : A) :
  StronglySorted R l -> Forall (fun a => R a x) l -> StronglySorted R (l ++ [x]).
Proof.
  induction 1 as [|y t Hs IH Hy]; intros HF; simpl.
  - constructor; constructor.
  - inversion HF; subst. constructor; [apply IH; assumption|].
    apply Forall_app. split; [assumption|]. constructor; [assumption | constructor].
Qed.

Lemma StronglySorted_rev {A : Type} (R : A -> A -> Prop) (l : list A) :
  StronglySorted R l -> StronglySorted (fun a b => R b a) (rev l).
Proof.
  induction 1 as [|y t Hs IH Hy]; simpl; [constructor|].
  apply StronglySorted_snoc; [assumption|].
  rewrite Forall_forall in *. intros a Ha. apply Hy. apply in_rev. assumption.
Qed.

Lemma StronglySorted_cross {A : Type} (R : A -> A -> Prop) (l1 l2 : list A) :
  StronglySorted R (l1 ++ l2) ->
  forall x y, In x l1 -> In y l2 -> R x y.
Proof.
  induction l1 as [|a t IH]; simpl; intros Hs x y Hx Hy; [contradiction|].
  inversion Hs; subst. destruct Hx as [<-|Hx].
  - rewrite Forall_forall in H2. apply H2. apply in_or_app. right; assumption.
  - apply IH; assumption.
Qed.

(** The order in which the selection reads the states: never increasing in
    score and a rearrangement of all the positions of [prob]. *)
Lemma ranking_decreasing (prob : list Q) : decreasing prob (rev (np_argsort prob)).
Proof. apply StronglySorted_rev. apply np_argsort_sorted. Qed.

Lemma ranking_perm (prob : list Q) :
  Permutation (rev (np_argsort prob)) (seq 0 (length prob)).
Proof. rewrite <- Permutation_rev. apply np_argsort_perm. Qed.

Lemma length_ranking (prob : list Q) :
  length (rev (np_argsort prob)) = length prob.
Proof.
  rewrite (Permutation_length (ranking_perm prob)). apply length_seq.
Qed.

Lemma insert_nat_perm (x : nat) (l : list nat) :
  Permutation (insert_nat x l) (x :: l).
Proof.
  induction l as [|y t IH]; simpl; [reflexivity|].
  destruct (x <=? y)%nat; [reflexivity|].
  rewrite IH. apply perm_swap.
Qed.

Lemma np_sort_perm (l : list nat) : Permutation (np_sort l) l.
Proof.
  induction l as [|x t IH]; simpl; [reflexivity|].
  rewrite insert_nat_perm. constructor. exact IH.
Qed.

Lemma insert_nat_sorted (x : nat) (l : list nat) :
  StronglySorted le l -> StronglySorted le (insert_nat x l).
Proof.
  induction 1 as [|y t Hs IH Hy]; simpl.
  - constructor; constructor.
  - destruct (Nat.leb_spec x y) as [Hle|Hgt].
    + constructor; [constructor; assumption|].
      constructor; [assumption|].
      eapply Forall_impl; [|exact Hy]. simpl; intros; lia.
    + constructor; [assumption|].
      rewrite Forall_forall in *. intros z Hz.
      apply (Permutation_in _ (insert_nat_perm x t)) in Hz.
      destruct Hz as [<-|Hz]; [lia | apply Hy; assumption].
Qed.

Lemma np_sort_sorted (l : list nat) : StronglySorted le (np_sort l).
Proof.
  induction l as [|x t IH]; simpl; [constructor|].
  apply insert_nat_sorted. exact IH.
Qed.

(** ** The selection step *)

(** What [select] computes when it selects: [n0] is the first position of
    the running sums above the target. *)
Lemma select_Some (prob : list Q) (probsum target : Q) (sel : list nat) :
  select prob probsum target = Some sel ->
  exists n0 c,
    sel = np_sort (firstn (S n0) (rev (np_argsort prob))) /\
    nth_error (np_cumsum (take prob (rev (np_argsort prob)))) n0 = Some c /\
    (probsum * target < c)%Q /\
    (forall k' c', (k' < n0)%nat ->
        nth_error (np_cumsum (take prob (rev (np_argsort prob)))) k' = Some c' ->
        (c' <= probsum * target)%Q).
Proof.
  unfold select, np_where_gt.
  destruct (where_gt_from 0 _ _) as [|n0 r] eqn:E; [discriminate|].
  intros H; injection H as <-.
  apply where_gt_from_head in E. destruct E as [k [c [-> [Hn [Hlt Hmin]]]]].
  exists k, c. simpl. repeat split; try assumption.
  - apply Qltb_lt; assumption.
  - intros k' c' Hk Hc. apply Qltb_ge. eapply Hmin; eassumption.
Qed.

Lemma select_None (prob : list Q) (probsum target : Q) :
  select prob probsum target = None <->
  (forall k c,
      nth_error (np_cumsum (take prob (rev (np_argsort prob)))) k = Some c ->
      (c <= probsum * target)%Q).
Proof.
  unfold select, np_where_gt.
  destruct (where_gt_from 0 _ _) as [|n0 r] eqn:E.
  - split; [|reflexivity]. intros _ k c Hc. apply Qltb_ge.
    eapply (proj1 (where_gt_from_nil _ _ _) E); eassumption.
  - split; [discriminate|]. intros H. exfalso.
    apply where_gt_from_head in E. destruct E as [k [c [_ [Hn [Hlt _]]]]].
    apply H in Hn. apply Qltb_lt in Hlt.
    apply (Qlt_irrefl c). eapply Qle_lt_trans; eassumption.
Qed.

Lemma length_take (prob : list Q) (idx : list nat) :
  length (take prob idx) = length idx.
Proof. apply length_map. Qed.

Lemma select_length (prob : list Q) (probsum target : Q) (sel : list nat) :
  select prob probsum target = Some sel ->
  (1 <= length sel <= length prob)%nat /\
  exists n0, length sel = S n0 /\
             sel = np_sort (firstn (S n0) (rev (np_argsort prob))).
Proof.
  intros H. apply select_Some in H. destruct H as [n0 [c [-> [Hn _]]]].
  assert (n0 < length prob)%nat as Hlt.
  { assert (nth_error (np_cumsum (take prob (rev (np_argsort prob)))) n0 <> None)
      as Hnn by congruence.
    apply nth_error_Some in Hnn.
    rewrite length_np_cumsum, length_take, length_ranking in Hnn. exact Hnn. }
  rewrite (Permutation_length (np_sort_perm _)), length_firstn, length_ranking.
  split; [lia|]. exists n0. split; [lia | reflexivity].
Qed.

Lemma take_leaders_Some (oldk : list State) (sel : list nat) (leadk : list State) :
  take_leaders oldk sel = Some leadk ->
  leadk = map (fun i => nth i oldk []) sel /\
  Forall (fun i => (i < length oldk)%nat) sel.
Proof.
  revert leadk; induction sel as [|i t IH]; simpl; intros leadk H.
  - injection H as <-. split; constructor.
  - destruct (nth_error oldk i) as [s|] eqn:E; [|discriminate].
    destruct (take_leaders oldk t) as [r|]; [|discriminate].
    injection H as <-. destruct (IH r eq_refl) as [-> HF].
    split.
    + simpl. f_equal. symmetry. apply nth_error_nth. assumption.
    + constructor; [|assumption]. apply nth_error_Some. congruence.
Qed.


Lemma take_leaders_None (oldk : list State) (sel : list nat) :
  take_leaders oldk sel = None <->
  exists i, In i sel /\ (length oldk <= i)%nat.
Proof.
  induction sel as [|i t IH]; simpl.
  - split; [discriminate | intros [i [[] _]]].
  - destruct (nth_error oldk i) as [s|] eqn:E.
    + destruct (take_leaders oldk t) as [r|].
      * split; [discriminate|]. intros [j [[<-|Hj] Hle]].
        -- apply nth_error_None in Hle. congruence.
        -- destruct IH as [_ IH]. discriminate IH. exists j; auto.
      * split; [|reflexivity]. intros _.
        destruct (proj1 IH eq_refl) as [j [Hj Hle]]. exists j; auto.
    + split; [|reflexivity]. intros _. exists i. split; [auto|].
      apply nth_error_None. assumption.
Qed.

(** C3.  When the selection step selects, the number [nsel] of selected
    indices is the smallest length of a non-empty prefix of the scores, read
    in decreasing order, whose sum is strictly above
    [targ = probsum * target]; the selected indices are those of the first
    [nsel] scores in that order, so no state left out scores more than a
    selected one; the final [np.sort] only rearranges them (into ascending
    index order); and the leaders extracted are the states of the previous
    level at these positions. *)
Theorem selection_is_smallest_top_prefix
        (prob : list Q) (probsum target : Q) (sel : list nat) :
  select prob probsum target = Some sel ->
  (1 <= length sel <= length prob)%nat /\
  decreasing prob (rev (np_argsort prob)) /\
  Permutation (rev (np_argsort prob)) (seq 0 (length prob)) /\
  (probsum * target <
     prefix_sum (length sel) (take prob (rev (np_argsort prob))))%Q /\
  (forall k, (1 <= k < length sel)%nat ->
     (prefix_sum k (take prob (rev (np_argsort prob))) <= probsum * target)%Q) /\
  Permutation sel (firstn (length sel) (rev (np_argsort prob))) /\
  StronglySorted le sel /\
  NoDup sel /\
  (forall i j, In i sel -> (j < length prob)%nat -> ~ In j sel ->
               (nth j prob 0 <= nth i prob 0)%Q) /\
  (forall oldk leadk,
      take_leaders oldk sel = Some leadk ->
      leadk = map (fun i => nth i oldk []) sel /\
      Permutation leadk
        (map (fun i => nth i oldk [])
             (firstn (length sel) (rev (np_argsort prob))))).
Proof.
  intros H.
  destruct (select_length _ _ _ _ H) as [Hlen [n0 [Hn0 Hsel]]].
  destruct (select_Some _ _ _ _ H) as [n1 [c [Hsel' [Hc [Hlt Hmin]]]]].
  assert (n1 = n0) as ->.
  { assert (length sel = S n1) as E.
    { assert (n1 < length prob)%nat.
      { assert (nth_error (np_cumsum (take prob (rev (np_argsort prob)))) n1
                <> None) as Hnn by congruence.
        apply nth_error_Some in Hnn.
        rewrite length_np_cumsum, length_take, length_ranking in Hnn. exact Hnn. }
      rewrite Hsel', (Permutation_length (np_sort_perm _)), length_firstn,
        length_ranking. lia. }
    lia. }
  assert (Permutation sel (firstn (length sel) (rev (np_argsort prob)))) as Hperm.
  { rewrite Hn0. rewrite Hsel at 1. apply np_sort_perm. }
  assert (NoDup (rev (np_argsort prob))) as Hnd.
  { apply (Permutation_NoDup (Permutation_sym (ranking_perm prob))).
    apply seq_NoDup. }
  split; [exact Hlen|].
  split; [apply ranking_decreasing|].
  split; [apply ranking_perm|].
  split.
  { rewrite Hn0. apply np_cumsum_nth in Hc. rewrite <- Hc. exact Hlt. }
  split.
  { intros k Hk. destruct k as [|k']; [lia|].
    destruct (nth_error (np_cumsum (take prob (rev (np_argsort prob)))) k')
      as [c'|] eqn:E.
    - pose proof (np_cumsum_nth _ _ _ E) as Hc'. rewrite <- Hc'.
      apply (Hmin k'); [lia | assumption].
    - apply nth_error_None in E.
      rewrite length_np_cumsum, length_take, length_ranking in E. lia. }
  split; [exact Hperm|].
  split; [rewrite Hsel; apply np_sort_sorted|].
  split.
  { apply (Permutation_NoDup (Permutation_sym Hperm)).
    rewrite <- (firstn_skipn (length sel)) in Hnd.
    apply NoDup_app_remove_r in Hnd. exact Hnd. }
  split.
  { intros i j Hi Hj Hnj.
    pose proof (ranking_decreasing prob) as Hdec. unfold decreasing in Hdec.
    rewrite <- (firstn_skipn (length sel)) in Hdec.
    apply (StronglySorted_cross _ _ _ Hdec i j).
    - apply (Permutation_in _ Hperm). assumption.
    - assert (In j (rev (np_argsort prob))) as Hin.
      { apply (Permutation_in _ (Permutation_sym (ranking_perm prob))).
        apply in_seq. lia. }
      rewrite <- (firstn_skipn (length sel)) in Hin.
      apply in_app_or in Hin. destruct Hin as [Hin|Hin]; [|assumption].
      exfalso. apply Hnj.
      apply (Permutation_in _ (Permutation_sym Hperm)). assumption. }
  intros oldk leadk Hl. apply take_leaders_Some in Hl. destruct Hl as [-> _].
  split; [reflexivity|]. apply Permutation_map. exact Hperm.
Qed.

Lemma selection_is_smallest_top_prefix_witness :
  (1 <= length [1%nat; 3%nat] <= length [1#2; 3; 1; 3; 2]%Q)%nat /\
  decreasing [1#2; 3; 1; 3; 2]%Q (rev (np_argsort [1#2; 3; 1; 3; 2]%Q)) /\
  Permutation (rev (np_argsort [1#2; 3; 1; 3; 2]%Q))
              (seq 0 (length [1#2; 3; 1; 3; 2]%Q)) /\
  ((19#2) * (1#2) <
     prefix_sum (length [1%nat; 3%nat])
                (take [1#2; 3; 1; 3; 2] (rev (np_argsort [1#2; 3; 1; 3; 2]))))%Q /\
  (forall k, (1 <= k < length [1%nat; 3%nat])%nat ->
     (prefix_sum k (take [1#2; 3; 1; 3; 2] (rev (np_argsort [1#2; 3; 1; 3; 2])))
      <= (19#2) * (1#2))%Q) /\
  Permutation [1%nat; 3%nat]
              (firstn (length [1%nat; 3%nat])
                      (rev (np_argsort [1#2; 3; 1; 3; 2]%Q))) /\
  StronglySorted le [1%nat; 3%nat] /\
  NoDup [1%nat; 3%nat] /\
  (forall i j, In i [1%nat; 3%nat] ->
               (j < length [1#2; 3; 1; 3; 2]%Q)%nat -> ~ In j [1%nat; 3%nat] ->
               (nth j [1#2; 3; 1; 3; 2] 0 <= nth i [1#2; 3; 1; 3; 2] 0)%Q) /\
  (forall oldk leadk,
      take_leaders oldk [1%nat; 3%nat] = Some leadk ->
      leadk = map (fun i => nth i oldk []) [1%nat; 3%nat] /\
      Permutation leadk
        (map (fun i => nth i oldk [])
             (firstn (length [1%nat; 3%nat])
                     (rev (np_argsort [1#2; 3; 1; 3; 2]%Q))))).
Proof.
  apply (selection_is_smallest_top_prefix
           [1#2; 3; 1; 3; 2]%Q (19#2)%Q (1#2)%Q [1%nat; 3%nat]).
  reflexivity.
Defined.

(** ** The loop *)

Section LoopFacts.

Variable hyper : Type.
Variable score : hyper -> list State -> list Q.
Variable zc : Z -> Z -> Z -> list State -> list State.

Local Abbreviation body' := (body hyper score zc).
Local Abbreviation while_loop' := (while_loop hyper score zc).
Local Abbreviation init' := (init hyper score).
Local Abbreviation create' := (create hyper score zc).
Local Abbreviation reach' := (reach hyper score zc).

(** What an iteration that runs to its end has done. *)
Lemma body_Continue (nsnps : Z) (target : Q) (hp : hyper) (st st' : loop_state) :
  body' nsnps target hp st = Continue st' ->
  stopping_check target st = false /\
  exists sel leadk,
    select (prob st) (probsum st) target = Some sel /\
    take_leaders (oldk st) sel = Some leadk /\
    Forall (fun l => Z.of_nat (length l) = norm st) leadk /\
    oldk st' = map sorted (zc (Z.of_nat (length sel)) (norm st + 1 - 1) nsnps leadk) /\
    zstates st' = zstates st ++ oldk st' /\
    prob st' = slice_last (length (oldk st')) (score hp (zstates st')) /\
    probsum st' = np_sum (prob st') /\
    old_probsum st' = probsum st /\
    norm st' = norm st + 1 /\
    calls st' = zstates st' :: calls st.
Proof.
  unfold body.
  destruct (stopping_check target st); [discriminate|].
  destruct (select (prob st) (probsum st) target) as [sel|] eqn:Hsel;
    [|discriminate].
  destruct (take_leaders (oldk st) sel) as [leadk|] eqn:Hlead; [|discriminate].
  destruct (forallb (fun l => Z.of_nat (length l) =? norm st + 1 - 1) leadk)
    eqn:Hshape; simpl; [|discriminate].
  destruct (_ <? 0); [discriminate|].
  intros H; injection H as <-. simpl.
  split; [reflexivity|]. exists sel, leadk.
  repeat split; try reflexivity; try assumption.
  rewrite forallb_forall in Hshape. apply Forall_forall. intros l Hl.
  apply Hshape in Hl. apply Z.eqb_eq in Hl. lia.
Qed.

Lemma body_stop (nsnps : Z) (target : Q) (hp : hyper) (st : loop_state) :
  stopping_check target st = true -> body' nsnps target hp st = Break.
Proof. unfold body. intros ->. reflexivity. Qed.

Lemma body_empty_selection (nsnps : Z) (target : Q) (hp : hyper) (st : loop_state) :
  select (prob st) (probsum st) target = None ->
  body' nsnps target hp st = Break.
Proof.
  unfold body. intros ->. destruct (stopping_check target st); reflexivity.
Qed.

Lemma body_index_error (nsnps : Z) (target : Q) (hp : hyper) (st : loop_state)
      (sel : list nat) :
  stopping_check target st = false ->
  select (prob st) (probsum st) target = Some sel ->
  take_leaders (oldk st) sel = None ->
  body' nsnps target hp st = Raise IndexError.
Proof. unfold body. intros -> -> ->. reflexivity. Qed.

Lemma while_loop_exit (nsnps cmax : Z) (target : Q) (hp : hyper)
      (fuel : nat) (st : loop_state) :
  cmax <= norm st ->
  while_loop' nsnps cmax target hp fuel st = Some (Returned (zstates st), calls st).
Proof.
  intros H. destruct fuel; simpl;
    (destruct (Z.ltb_spec (norm st) cmax); [lia | reflexivity]).
Qed.

Lemma while_loop_step (nsnps cmax : Z) (target : Q) (hp : hyper)
      (fuel : nat) (st : loop_state) :
  norm st < cmax ->
  while_loop' nsnps cmax target hp (S fuel) st =
  match body' nsnps target hp st with
  | Continue st' => while_loop' nsnps cmax target hp fuel st'
  | Break => Some (Returned (zstates st), calls st)
  | Raise e => Some (Raised e, calls st)
  end.
Proof.
  intros H. simpl. destruct (Z.ltb_spec (norm st) cmax); [reflexivity | lia].
Qed.

(** [cmax - norm] iterations are enough: the loop always ends. *)
Lemma while_loop_total (nsnps cmax : Z) (target : Q) (hp : hyper)
      (fuel : nat) (st : loop_state) :
  (Z.to_nat (cmax - norm st) <= fuel)%nat ->
  exists r, while_loop' nsnps cmax target hp fuel st = Some r.
Proof.
  revert st; induction fuel as [|fuel IH]; intros st Hf.
  - rewrite while_loop_exit by lia. eexists; reflexivity.
  - destruct (Z.lt_ge_cases (norm st) cmax) as [Hlt|Hge].
    + rewrite while_loop_step by assumption.
      destruct (body' nsnps target hp st) as [st'| |e] eqn:E;
        try (eexists; reflexivity).
      apply body_Continue in E.
      destruct E as [_ [sel [leadk [_ [_ [_ [_ [_ [_ [_ [_ [Hn _]]]]]]]]]]]].
      apply IH. lia.
    + rewrite while_loop_exit by lia. eexists; reflexivity.
Qed.

(** The loop only appends to the collection and to the trace. *)
Lemma while_loop_extends (nsnps cmax : Z) (target : Q) (hp : hyper)
      (fuel : nat) (st : loop_state) (o : outcome) (tr : trace) :
  while_loop' nsnps cmax target hp fuel st = Some (o, tr) ->
  (exists more, tr = more ++ calls st) /\
  (forall zs, o = Returned zs -> exists rest, zs = zstates st ++ rest).
Proof.
  revert st; induction fuel as [|fuel IH]; intros st H.
  - simpl in H. destruct (norm st <? cmax); [discriminate|].
    injection H as <- <-. split; [exists []; reflexivity|].
    intros zs E; injection E as <-. exists []. symmetry; apply app_nil_r.
  - simpl in H. destruct (norm st <? cmax).
    + destruct (body' nsnps target hp st) as [st'| |e] eqn:E.
      * apply body_Continue in E.
        destruct E as [_ [sel [leadk [_ [_ [_ [_ [Hz [_ [_ [_ [_ Hc]]]]]]]]]]]].
        apply IH in H. destruct H as [[more Hm] Hr]. split.
        -- exists (more ++ [zstates st']). rewrite Hm, Hc, <- app_assoc.
           reflexivity.
        -- intros zs Ho. destruct (Hr zs Ho) as [rest ->].
           exists (oldk st' ++ rest). rewrite Hz, <- app_assoc. reflexivity.
      * injection H as <- <-. split; [exists []; reflexivity|].
        intros zs E'; injection E' as <-. exists []. symmetry; apply app_nil_r.
      * injection H as <- <-. split; [exists []; reflexivity|].
        intros zs E'; discriminate E'.
    + injection H as <- <-. split; [exists []; reflexivity|].
      intros zs E; injection E as <-. exists []. symmetry; apply app_nil_r.
Qed.

Lemma init_Some (nsnps : Z) (hp : hyper) (st : loop_state) :
  init' nsnps hp = Some st ->
  zstates st = [[]] ++ singletons nsnps /\
  oldk st = singletons nsnps /\
  prob st = slice_last (length (oldk st)) (score hp (zstates st)) /\
  probsum st = np_sum (prob st) /\
  hd_error (score hp (zstates st)) = Some (old_probsum st) /\
  norm st = 1 /\
  calls st = [zstates st].
Proof.
  unfold init.
  destruct (score hp ([[]] ++ singletons nsnps)) as [|p0 ps] eqn:E; [discriminate|].
  intros H; injection H as <-.
  cbn [zstates oldk prob probsum old_probsum norm calls].
  change ([[]] ++ singletons nsnps) with ([] :: singletons nsnps) in E.
  rewrite E. repeat split; reflexivity.
Qed.

(** ** Reachable loop states *)

Lemma reach_zstates (nsnps cmax : Z) (target : Q) (hp : hyper)
      (levels : list (list State)) (st : loop_state) :
  reach' nsnps cmax target hp levels st -> zstates st = concat levels.
Proof.
  induction 1 as [st Hi|levels st st' _ IH _ Hb].
  - apply init_Some in Hi. destruct Hi as [-> _]. simpl.
    rewrite app_nil_r. reflexivity.
  - apply body_Continue in Hb.
    destruct Hb as [_ [sel [leadk [_ [_ [_ [_ [Hz _]]]]]]]].
    rewrite Hz, IH, concat_app. simpl. rewrite app_nil_r. reflexivity.
Qed.

Lemma reach_norm (nsnps cmax : Z) (target : Q) (hp : hyper)
      (levels : list (list State)) (st : loop_state) :
  reach' nsnps cmax target hp levels st ->
  Z.of_nat (length levels) = norm st + 1.
Proof.
  induction 1 as [st Hi|levels st st' _ IH _ Hb].
  - apply init_Some in Hi. destruct Hi as [_ [_ [_ [_ [_ [-> _]]]]]]. reflexivity.
  - apply body_Continue in Hb.
    destruct Hb as [_ [sel [leadk [_ [_ [_ [_ [_ [_ [_ [_ [Hn _]]]]]]]]]]]].
    rewrite length_app, Hn. simpl. lia.
Qed.

Lemma reach_oldk (nsnps cmax : Z) (target : Q) (hp : hyper)
      (levels : list (list State)) (st : loop_state) :
  reach' nsnps cmax target hp levels st -> oldk st = last levels [].
Proof.
  induction 1 as [st Hi|levels st st' _ IH _ Hb].
  - apply init_Some in Hi. destruct Hi as [_ [-> _]]. reflexivity.
  - rewrite last_last. reflexivity.
Qed.

Lemma reach_first_levels (nsnps cmax : Z) (target : Q) (hp : hyper)
      (levels : list (list State)) (st : loop_state) :
  reach' nsnps cmax target hp levels st ->
  exists later, levels = [[[]]; singletons nsnps] ++ later.
Proof.
  induction 1 as [st Hi|levels st st' _ [later ->] _ Hb].
  - exists []. reflexivity.
  - exists (later ++ [oldk st']). rewrite app_assoc. reflexivity.
Qed.

(** The scores in use are those of the newest level, and [probsum] is
    their sum. *)
Lemma reach_prob (nsnps cmax : Z) (target : Q) (hp : hyper)
      (levels : list (list State)) (st : loop_state) :
  reach' nsnps cmax target hp levels st ->
  prob st = slice_last (length (last levels [])) (score hp (concat levels)) /\
  probsum st = np_sum (prob st).
Proof.
  intros H. pose proof (reach_zstates _ _ _ _ _ _ H) as Hz.
  pose proof (reach_oldk _ _ _ _ _ _ H) as Ho.
  rewrite <- Hz, <- Ho. destruct H as [st Hi|levels st st' _ _ Hb].
  - apply init_Some in Hi. tauto.
  - apply body_Continue in Hb.
    destruct Hb as [_ [sel [leadk [_ [_ [_ [_ [_ [Hp [Hs _]]]]]]]]]].
    split; assumption.
Qed.

(** [old_probsum] is the score of the empty state before the first
    iteration, and the sum of the previous level's scores afterwards. *)
Lemma reach_old_probsum (nsnps cmax : Z) (target : Q) (hp : hyper)
      (levels : list (list State)) (st : loop_state) :
  reach' nsnps cmax target hp levels st ->
  (levels = [[[]]; singletons nsnps] /\
   hd_error (score hp (concat levels)) = Some (old_probsum st)) \/
  (exists before prev new,
      levels = before ++ [prev; new] /\
      old_probsum st =
      np_sum (slice_last (length prev) (score hp (concat (before ++ [prev]))))).
Proof.
  intros H. destruct H as [st Hi|levels st st' Hr _ Hb].
  - left. split; [reflexivity|]. apply init_Some in Hi.
    destruct Hi as [Hz [_ [_ [_ [Hh _]]]]]. rewrite Hz in Hh. simpl in *.
    rewrite app_nil_r. exact Hh.
  - right. pose proof (reach_prob _ _ _ _ _ _ Hr) as [Hp Hs].
    apply body_Continue in Hb.
    destruct Hb as [_ [sel [leadk [_ [_ [_ [_ [_ [_ [_ [Ho _]]]]]]]]]]].
    destruct (exists_last (l := levels)) as [before [prev E]].
    { intros ->. apply reach_first_levels in Hr.
      destruct Hr as [later Hf]. discriminate Hf. }
    exists before, prev, (oldk st'). split.
    + rewrite E, <- app_assoc. reflexivity.
    + rewrite Ho, Hs, Hp, E, last_last. reflexivity.
Qed.

(** One scorer call per level from level 1 on, the latest on the whole
    collection. *)
Lemma reach_calls (nsnps cmax : Z) (target : Q) (hp : hyper)
      (levels : list (list State)) (st : loop_state) :
  reach' nsnps cmax target hp levels st ->
  S (length (calls st)) = length levels /\
  hd_error (calls st) = Some (zstates st).
Proof.
  induction 1 as [st Hi|levels st st' _ [IH _] _ Hb].
  - apply init_Some in Hi. destruct Hi as [_ [_ [_ [_ [_ [_ ->]]]]]].
    split; reflexivity.
  - apply body_Continue in Hb.
    destruct Hb as [_ [sel [leadk [_ [_ [_ [_ [_ [_ [_ [_ [_ Hc]]]]]]]]]]]].
    rewrite Hc, length_app. simpl. split; [lia | reflexivity].
Qed.

(** From a reachable state, [create] is the rest of the loop. *)
Lemma reach_create (nsnps cmax : Z) (target : Q) (hp : hyper)
      (levels : list (list State)) (st : loop_state) :
  reach' nsnps cmax target hp levels st ->
  1 < cmax ->
  create' nsnps cmax target hp false =
  while_loop' nsnps cmax target hp (Z.to_nat (cmax - norm st)) st.
Proof.
  intros H Hc. induction H as [st Hi|levels st st' Hr IH Hlt Hb].
  - unfold create. simpl negb. cbv iota.
    destruct (Z.gtb_spec cmax 1); [|lia].
    fold (init' nsnps hp). rewrite Hi.
    apply init_Some in Hi. destruct Hi as [_ [_ [_ [_ [_ [-> _]]]]]].
    reflexivity.
  - rewrite IH. apply Z.ltb_lt in Hlt.
    replace (Z.to_nat (cmax - norm st)) with (S (Z.to_nat (cmax - norm st - 1)))
      by lia.
    rewrite while_loop_step by assumption. rewrite Hb.
    apply body_Continue in Hb.
    destruct Hb as [_ [sel [leadk [_ [_ [_ [_ [_ [_ [_ [_ [Hn _]]]]]]]]]]]].
    rewrite Hn. f_equal. lia.
Qed.

End LoopFacts.

(** ** Sums of particular score vectors *)

Lemma Forall_slice_last {A : Type} (P : A -> Prop) (n : nat) (l : list A) :
  Forall P l -> Forall P (slice_last n l).
Proof.
  intros H. destruct n as [|n]; simpl; [assumption|].
  rewrite <- (firstn_skipn (length l - S n) l) in H.
  apply Forall_app in H. tauto.
Qed.

Lemma Forall_take (P : Q -> Prop) (prob : list Q) (idx : list nat) :
  P 0%Q -> Forall P prob -> Forall P (take prob idx).
Proof.
  intros H0 HF. unfold take. apply Forall_forall. intros x Hx.
  apply in_map_iff in Hx. destruct Hx as [i [<- _]].
  destruct (nth_in_or_default i prob 0%Q) as [Hin| ->]; [|assumption].
  rewrite Forall_forall in HF. apply HF; assumption.
Qed.

Lemma Forall_firstn {A : Type} (P : A -> Prop) (n : nat) (l : list A) :
  Forall P l -> Forall P (firstn n l).
Proof.
  intros H. rewrite <- (firstn_skipn n l) in H.
  apply Forall_app in H. tauto.
Qed.

Lemma np_sum_zero (l : list Q) :
  Forall (fun x => x == 0)%Q l -> (np_sum l == 0)%Q.
Proof.
  induction 1 as [|x t Hx _ IH].
  - reflexivity.
  - rewrite np_sum_cons, Hx, IH. reflexivity.
Qed.

Lemma prefix_sum_le_total (k : nat) (l : list Q) :
  Forall (fun x => 0 <= x)%Q l -> (prefix_sum k l <= np_sum l)%Q.
Proof.
  intros H. unfold prefix_sum.
  rewrite <- (firstn_skipn k l) at 2. rewrite np_sum_app.
  rewrite <- (firstn_skipn k l) in H. apply Forall_app in H. destruct H as [_ H].
  apply np_sum_nonneg in H.
  rewrite <- (Qplus_0_r (np_sum (firstn k l))) at 1.
  apply Qplus_le_compat; [apply Qle_refl | assumption].
Qed.

Lemma take_all (prob : list Q) : take prob (seq 0 (length prob)) = prob.
Proof.
  unfold take. apply (nth_ext _ _ 0%Q 0%Q).
  - rewrite length_map, length_seq. reflexivity.
  - intros n Hn. rewrite length_map, length_seq in Hn.
    rewrite (nth_indep _ _ (nth 0%nat prob 0%Q))
      by (rewrite length_map, length_seq; assumption).
    change (nth 0%nat prob 0%Q) with ((fun i => nth i prob 0%Q) 0%nat).
    rewrite map_nth, seq_nth by assumption. reflexivity.
Qed.

(** Read in ranking order, the scores are a rearrangement of [prob]. *)
Lemma take_ranking_perm (prob : list Q) :
  Permutation (take prob (rev (np_argsort prob))) prob.
Proof.
  rewrite <- (take_all prob) at 3. unfold take at 1 2.
  apply Permutation_map. apply ranking_perm.
Qed.

(** The selection is empty exactly when no non-empty prefix of the ranked
    scores sums to more than the target. *)
Lemma select_None_prefix (prob : list Q) (probsum target : Q) :
  select prob probsum target = None <->
  (forall k, (1 <= k <= length prob)%nat ->
     (prefix_sum k (take prob (rev (np_argsort prob))) <= probsum * target)%Q).
Proof.
  rewrite select_None. split.
  - intros H k Hk. destruct k as [|k']; [lia|].
    destruct (nth_error (np_cumsum (take prob (rev (np_argsort prob)))) k')
      as [c|] eqn:E.
    + rewrite <- (np_cumsum_nth _ _ _ E). eapply H; eassumption.
    + apply nth_error_None in E.
      rewrite length_np_cumsum, length_take, length_ranking in E. lia.
  - intros H k c Hc. rewrite (np_cumsum_nth _ _ _ Hc). apply H.
    assert (nth_error (np_cumsum (take prob (rev (np_argsort prob)))) k <> None)
      as Hnn by congruence.
    apply nth_error_Some in Hnn.
    rewrite length_np_cumsum, length_take, length_ranking in Hnn. lia.
Qed.

(** With [target = 1] and scores that are not negative, nothing is ever
    selected. *)
Lemma select_target_one (prob : list Q) (target : Q) :
  (target == 1)%Q -> Forall (fun x => 0 <= x)%Q prob ->
  select prob (np_sum prob) target = None.
Proof.
  intros Ht Hp. apply select_None_prefix. intros k _.
  rewrite Ht, Qmult_1_r, <- (np_sum_Permutation _ _ (take_ranking_perm prob)).
  apply prefix_sum_le_total.
  apply Forall_take; [apply Qle_refl | assumption].
Qed.

(** With scores that are all zero, nothing is ever selected. *)
Lemma select_all_zero (prob : list Q) (probsum target : Q) :
  (probsum == 0)%Q -> Forall (fun x => x == 0)%Q prob ->
  select prob probsum target = None.
Proof.
  intros Hs Hp. apply select_None_prefix. intros k _.
  rewrite Hs, Qmult_0_l. unfold prefix_sum. rewrite np_sum_zero.
  - apply Qle_refl.
  - apply Forall_firstn. apply Forall_take; [reflexivity | assumption].
Qed.

(** ** How a run of [create] ends *)

Section RunFacts.

Variable hyper : Type.
Variable score : hyper -> list State -> list Q.
Variable zc : Z -> Z -> Z -> list State -> list State.

Lemma reach_norm_pos (nsnps cmax : Z) (target : Q) (hp : hyper)
      (levels : list (list State)) (st : loop_state) :
  reach hyper score zc nsnps cmax target hp levels st -> 1 <= norm st.
Proof.
  intros H. pose proof (reach_norm _ _ _ _ _ _ _ _ _ H) as Hn.
  apply reach_first_levels in H. destruct H as [later ->].
  rewrite length_app in Hn. simpl in Hn. lia.
Qed.

Lemma reach_break (nsnps cmax : Z) (target : Q) (hp : hyper)
      (levels : list (list State)) (st : loop_state) :
  reach hyper score zc nsnps cmax target hp levels st ->
  norm st < cmax ->
  body hyper score zc nsnps target hp st = Break ->
  create hyper score zc nsnps cmax target hp false
  = Some (Returned (zstates st), calls st).
Proof.
  intros Hr Hlt Hb. pose proof (reach_norm_pos _ _ _ _ _ _ Hr) as Hp.
  rewrite (reach_create _ _ _ _ _ _ _ _ _ Hr) by lia.
  replace (Z.to_nat (cmax - norm st)) with (S (Z.to_nat (cmax - norm st - 1)))
    by lia.
  rewrite while_loop_step by assumption. rewrite Hb. reflexivity.
Qed.

Lemma reach_raise (nsnps cmax : Z) (target : Q) (hp : hyper)
      (levels : list (list State)) (st : loop_state) (e : exn) :
  reach hyper score zc nsnps cmax target hp levels st ->
  norm st < cmax ->
  body hyper score zc nsnps target hp st = Raise e ->
  create hyper score zc nsnps cmax target hp false = Some (Raised e, calls st).
Proof.
  intros Hr Hlt Hb. pose proof (reach_norm_pos _ _ _ _ _ _ Hr) as Hp.
  rewrite (reach_create _ _ _ _ _ _ _ _ _ Hr) by lia.
  replace (Z.to_nat (cmax - norm st)) with (S (Z.to_nat (cmax - norm st - 1)))
    by lia.
  rewrite while_loop_step by assumption. rewrite Hb. reflexivity.
Qed.

Lemma reach_exit (nsnps cmax : Z) (target : Q) (hp : hyper)
      (levels : list (list State)) (st : loop_state) :
  reach hyper score zc nsnps cmax target hp levels st ->
  1 < cmax -> cmax <= norm st ->
  create hyper score zc nsnps cmax target hp false
  = Some (Returned (zstates st), calls st).
Proof.
  intros Hr Hc Hge. rewrite (reach_create _ _ _ _ _ _ _ _ _ Hr) by lia.
  apply while_loop_exit. assumption.
Qed.

(** [create] always ends, with a collection or with an exception. *)
Lemma create_total (nsnps cmax : Z) (target : Q) (hp : hyper) (cov : bool) :
  exists r, create hyper score zc nsnps cmax target hp cov = Some r.
Proof.
  unfold create. destruct cov; simpl; [eexists; reflexivity|].
  destruct (cmax >? 1); [|eexists; reflexivity].
  destruct (init hyper score nsnps hp) as [st|] eqn:E; [|eexists; reflexivity].
  apply while_loop_total. apply init_Some in E.
  destruct E as [_ [_ [_ [_ [_ [-> _]]]]]]. lia.
Qed.

End RunFacts.

Lemma slice_last_split {A : Type} (n : nat) (l : list A) :
  (0 < n <= length l)%nat ->
  exists earlier,
    l = earlier ++ slice_last n l /\
    length earlier = (length l - n)%nat /\
    length (slice_last n l) = n.
Proof.
  intros H. destruct n as [|n]; [lia|]. simpl.
  exists (firstn (length l - S n) l).
  split; [symmetry; apply firstn_skipn|].
  rewrite length_firstn, length_skipn. lia.
Qed.

(** ** The stopping check *)

(** C2.  At the top of an iteration ([norm < cmax]) of a run of [create],
    if [probsum] is strictly below [(1 - target) * old_probsum], [create]
    returns the collection accumulated so far, and the scorer calls made
    are those made before: none is added.  There [probsum] is the sum of
    [prob], the slice [posterior[-len(newk):]] of the scores of the
    collection, which for a non-empty newest level and a scorer returning
    one score per state is the part of the score vector that belongs to the
    newest level; and [old_probsum] is the score of the empty state before
    the first iteration and the sum of the scores of the previous level
    afterwards. *)
Theorem stopping_check_returns_collection
        (hyper : Type) (score : hyper -> list State -> list Q)
        (zc : Z -> Z -> Z -> list State -> list State)
        (nsnps cmax : Z) (target : Q) (hp : hyper)
        (levels : list (list State)) (st : loop_state) :
  reach hyper score zc nsnps cmax target hp levels st ->
  norm st < cmax ->
  (probsum st < (1 - target) * old_probsum st)%Q ->
  create hyper score zc nsnps cmax target hp false
  = Some (Returned (zstates st), calls st) /\
  zstates st = concat levels /\
  hd_error (calls st) = Some (zstates st) /\
  S (length (calls st)) = length levels /\
  prob st = slice_last (length (last levels [])) (score hp (concat levels)) /\
  probsum st = np_sum (prob st) /\
  (last levels [] <> [] ->
   length (score hp (concat levels)) = length (concat levels) ->
   exists earlier,
     score hp (concat levels) = earlier ++ prob st /\
     length earlier = length (concat (removelast levels)) /\
     length (prob st) = length (last levels [])) /\
  ((levels = [[[]]; singletons nsnps] /\
    hd_error (score hp (concat levels)) = Some (old_probsum st)) \/
   (exists before prev new,
       levels = before ++ [prev; new] /\
       old_probsum st =
       np_sum (slice_last (length prev) (score hp (concat (before ++ [prev])))))).
Proof.
  intros Hr Hlt Hcheck.
  split.
  { apply (reach_break _ _ _ _ _ _ _ _ _ Hr Hlt).
    apply body_stop. apply Qltb_lt. exact Hcheck. }
  split; [eapply reach_zstates; eassumption|].
  destruct (reach_calls _ _ _ _ _ _ _ _ _ Hr) as [Hlen Hhd].
  split; [exact Hhd|]. split; [exact Hlen|].
  destruct (reach_prob _ _ _ _ _ _ _ _ _ Hr) as [Hp Hs].
  split; [exact Hp|]. split; [exact Hs|].
  split; [|eapply reach_old_probsum; eassumption].
  intros Hne Hlen'.
  assert (levels <> []) as Hlv.
  { destruct (reach_first_levels _ _ _ _ _ _ _ _ _ Hr) as [later ->].
    discriminate. }
  assert (length (concat levels)
          = (length (concat (removelast levels)) + length (last levels []))%nat)
    as Hsplit.
  { rewrite (app_removelast_last [] Hlv) at 1.
    rewrite concat_app, length_app. simpl. rewrite app_nil_r. reflexivity. }
  destruct (slice_last_split (length (last levels [])) (score hp (concat levels)))
    as [earlier [E [L1 L2]]].
  { destruct (last levels []); [congruence | simpl in *; lia]. }
  exists earlier. rewrite Hp. split; [exact E|]. split; [lia | exact L2].
Qed.

Lemma upto1_level2_reached :
  reach unit score_upto1 create_zstates 4 3 (49 # 50) tt
        [[[]]; singletons 4; oldk upto1_level2] upto1_level2.
Proof.
  apply (reach_step unit score_upto1 create_zstates 4 3 (49 # 50) tt
                    [[[]]; singletons 4] upto1_level1 upto1_level2).
  - apply reach_init. reflexivity.
  - reflexivity.
  - reflexivity.
Defined.

Lemma stopping_check_returns_collection_witness :
  create unit score_upto1 create_zstates 4 3 (49 # 50) tt false
  = Some (Returned (zstates upto1_level2), calls upto1_level2) /\
  zstates upto1_level2 = concat [[[]]; singletons 4; oldk upto1_level2] /\
  hd_error (calls upto1_level2) = Some (zstates upto1_level2) /\
  S (length (calls upto1_level2))
  = length [[[]]; singletons 4; oldk upto1_level2] /\
  prob upto1_level2
  = slice_last (length (last [[[]]; singletons 4; oldk upto1_level2] []))
               (score_upto1 tt (concat [[[]]; singletons 4; oldk upto1_level2])) /\
  probsum upto1_level2 = np_sum (prob upto1_level2) /\
  (last [[[]]; singletons 4; oldk upto1_level2] [] <> [] ->
   length (score_upto1 tt (concat [[[]]; singletons 4; oldk upto1_level2]))
   = length (concat [[[]]; singletons 4; oldk upto1_level2]) ->
   exists earlier,
     score_upto1 tt (concat [[[]]; singletons 4; oldk upto1_level2])
     = earlier ++ prob upto1_level2 /\
     length earlier
     = length (concat (removelast [[[]]; singletons 4; oldk upto1_level2])) /\
     length (prob upto1_level2)
     = length (last [[[]]; singletons 4; oldk upto1_level2] [])) /\
  (([[[]]; singletons 4; oldk upto1_level2] = [[[]]; singletons 4] /\
    hd_error (score_upto1 tt (concat [[[]]; singletons 4; oldk upto1_level2]))
    = Some (old_probsum upto1_level2)) \/
   (exists before prev new,
       [[[]]; singletons 4; oldk upto1_level2] = before ++ [prev; new] /\
       old_probsum upto1_level2 =
       np_sum (slice_last (length prev)
                          (score_upto1 tt (concat (before ++ [prev])))))).
Proof.
  apply (stopping_check_returns_collection
           unit score_upto1 create_zstates 4 3 (49 # 50) tt
           [[[]]; singletons 4; oldk upto1_level2] upto1_level2).
  - exact upto1_level2_reached.
  - reflexivity.
  - reflexivity.
Defined.

(** ** The empty selection *)

Lemma init_scored (hyper : Type) (score : hyper -> list State -> list Q)
      (nsnps : Z) (hp : hyper) :
  score hp ([[]] ++ singletons nsnps) <> [] ->
  exists st, init hyper score nsnps hp = Some st.
Proof.
  intros H. unfold init.
  destruct (score hp ([[]] ++ singletons nsnps)); [contradiction|].
  eexists; reflexivity.
Qed.

Lemma init_reach_break (hyper : Type) (score : hyper -> list State -> list Q)
      (zc : Z -> Z -> Z -> list State -> list State)
      (nsnps cmax : Z) (target : Q) (hp : hyper) (st : loop_state) :
  init hyper score nsnps hp = Some st ->
  1 < cmax ->
  body hyper score zc nsnps target hp st = Break ->
  create hyper score zc nsnps cmax target hp false
  = Some (Returned ([[]] ++ singletons nsnps), [[[]] ++ singletons nsnps]).
Proof.
  intros Hi Hc Hb.
  pose proof (init_Some _ _ _ _ _ Hi) as [Hz [_ [_ [_ [_ [Hn Hcalls]]]]]].
  rewrite (reach_break hyper score zc nsnps cmax target hp _ st
                       (reach_init _ _ _ _ _ _ _ _ Hi)); [| lia | assumption].
  rewrite Hcalls, Hz. reflexivity.
Qed.

(** C4.  If, at the top of an iteration of a run of [create], no
    non-empty prefix of the scores read in decreasing order sums to strictly
    more than [targ = probsum * target], nothing is selected and [create]
    returns the collection built so far, without an exception and without a
    further scorer call.  In particular, with 4 SNPs, [cmax = 3] and a
    scorer that returns one score per state and scores every state 0
    (levels 0 and 1 included), for every [target] the stopping check of
    line 65 does not fire, the selection is empty, and [create] returns
    exactly levels 0 and 1, five states, after its single scorer call. *)
Theorem empty_selection_returns_collection
        (hyper : Type) (score : hyper -> list State -> list Q)
        (zc : Z -> Z -> Z -> list State -> list State)
        (nsnps cmax : Z) (target : Q) (hp : hyper) :
  (forall levels st,
      reach hyper score zc nsnps cmax target hp levels st ->
      norm st < cmax ->
      (forall k, (1 <= k <= length (prob st))%nat ->
         (prefix_sum k (take (prob st) (rev (np_argsort (prob st))))
          <= probsum st * target)%Q) ->
      select (prob st) (probsum st) target = None /\
      create hyper score zc nsnps cmax target hp false
      = Some (Returned (zstates st), calls st)) /\
  ((forall zs, length (score hp zs) = length zs) ->
   (forall zs, Forall (fun x => x == 0)%Q (score hp zs)) ->
   exists st,
     init hyper score 4 hp = Some st /\
     stopping_check target st = false /\
     select (prob st) (probsum st) target = None /\
     create hyper score zc 4 3 target hp false
     = Some (Returned [[]; [0]; [1]; [2]; [3]], [[[]; [0]; [1]; [2]; [3]]])).
Proof.
  split.
  - intros levels st Hr Hlt Hpre.
    apply select_None_prefix in Hpre. split; [exact Hpre|].
    apply (reach_break _ _ _ _ _ _ _ _ _ Hr Hlt).
    apply body_empty_selection. exact Hpre.
  - intros Hlen Hzero.
    destruct (init_scored hyper score 4 hp) as [st Hi].
    { intros E. specialize (Hlen ([[]] ++ singletons 4)).
      rewrite E in Hlen. discriminate Hlen. }
    exists st. pose proof (init_Some _ _ _ _ _ Hi)
      as [Hz [Ho [Hp [Hs [Hh [Hn Hcalls]]]]]].
    assert (Forall (fun x => x == 0)%Q (prob st)) as Hp0.
    { rewrite Hp. apply Forall_slice_last. apply Hzero. }
    assert (probsum st == 0)%Q as Hs0.
    { rewrite Hs. apply np_sum_zero. exact Hp0. }
    assert (old_probsum st == 0)%Q as Ho0.
    { specialize (Hzero (zstates st)).
      destruct (score hp (zstates st)) as [|p0 ps]; [discriminate|].
      injection Hh as <-. inversion Hzero; assumption. }
    assert (stopping_check target st = false) as Hcheck.
    { unfold stopping_check. apply Qltb_ge. rewrite Hs0, Ho0, Qmult_0_r.
      apply Qle_refl. }
    assert (select (prob st) (probsum st) target = None) as Hsel
        by (apply select_all_zero; assumption).
    repeat split; try assumption.
    apply (init_reach_break hyper score zc 4 3 target hp st Hi); [lia|].
    apply body_empty_selection. exact Hsel.
Qed.

Lemma empty_selection_returns_collection_witness :
  exists st,
    init unit score_zero 4 tt = Some st /\
    stopping_check (49 # 50) st = false /\
    select (prob st) (probsum st) (49 # 50) = None /\
    create unit score_zero create_zstates 4 3 (49 # 50) tt false
    = Some (Returned [[]; [0]; [1]; [2]; [3]], [[[]; [0]; [1]; [2]; [3]]]).
Proof.
  apply (proj2 (empty_selection_returns_collection
                  unit score_zero create_zstates 4 3 (49 # 50) tt)).
  - intros zs. apply length_map.
  - intros zs. unfold score_zero. apply Forall_forall. intros x Hx.
    apply in_map_iff in Hx. destruct Hx as [s [<- _]]. reflexivity.
Defined.

(** The scenario of C4 as the specification words it does not hold.  A
    scorer that is zero beyond level 1 only: with [target = 0.98] the
    four singletons (score 1 each) are all selected, level 2 is generated
    and scored, and [create] returns eleven states after two scorer calls;
    it does not end at level 1 and the selection is never empty. *)
Lemma zero_beyond_level1_generates_level2 :
  (forall zs, Forall2 (fun s x => (1 < length s)%nat -> x == 0)%Q
                      zs (score_upto1 tt zs)) /\
  select (prob upto1_level1) (probsum upto1_level1) (49 # 50)
  = Some [0%nat; 1%nat; 2%nat; 3%nat] /\
  create unit score_upto1 create_zstates 4 3 (49 # 50) tt false
  = Some (Returned [[]; [0]; [1]; [2]; [3];
                    [0; 1]; [0; 2]; [0; 3]; [1; 2]; [1; 3]; [2; 3]],
          [[[]; [0]; [1]; [2]; [3];
            [0; 1]; [0; 2]; [0; 3]; [1; 2]; [1; 3]; [2; 3]];
           [[]; [0]; [1]; [2]; [3]]]).
Proof.
  split; [|split; reflexivity].
  induction zs as [|s t IH]; simpl; constructor; [|exact IH].
  intros Hs. destruct (Nat.leb_spec (length s) 1); [lia | reflexivity].
Qed.

(** C10.  With [target] equal to 1, [cmax > 1], at least one SNP and a
    scorer that returns one score per state, none negative: in exact
    arithmetic no prefix of the ranked scores sums to more than
    [probsum * 1], so in the first iteration the stopping check does not
    fire, the selection is empty, and [create] returns exactly levels 0
    and 1 ([1 + nsnps] states) after its single scorer call. *)
Theorem target_one_returns_levels_0_and_1
        (hyper : Type) (score : hyper -> list State -> list Q)
        (zc : Z -> Z -> Z -> list State -> list State)
        (nsnps cmax : Z) (target : Q) (hp : hyper) :
  (target == 1)%Q -> 1 < cmax -> 1 <= nsnps ->
  (forall zs, length (score hp zs) = length zs) ->
  (forall zs, Forall (fun x => 0 <= x)%Q (score hp zs)) ->
  (exists st,
     init hyper score nsnps hp = Some st /\
     stopping_check target st = false /\
     select (prob st) (probsum st) target = None) /\
  create hyper score zc nsnps cmax target hp false
  = Some (Returned ([[]] ++ singletons nsnps), [[[]] ++ singletons nsnps]) /\
  length ([[]] ++ singletons nsnps) = S (Z.to_nat nsnps).
Proof.
  intros Ht Hc Hn Hlen Hpos.
  destruct (init_scored hyper score nsnps hp) as [st Hi].
  { intros E. specialize (Hlen ([[]] ++ singletons nsnps)).
    rewrite E in Hlen. discriminate Hlen. }
  pose proof (init_Some _ _ _ _ _ Hi) as [Hz [Ho [Hp [Hs _]]]].
  assert (Forall (fun x => 0 <= x)%Q (prob st)) as Hp0.
  { rewrite Hp. apply Forall_slice_last. apply Hpos. }
  assert (stopping_check target st = false) as Hcheck.
  { unfold stopping_check. apply Qltb_ge. rewrite Ht.
    setoid_replace ((1 - 1) * old_probsum st)%Q with 0%Q by ring.
    rewrite Hs. apply np_sum_nonneg. exact Hp0. }
  assert (select (prob st) (probsum st) target = None) as Hsel.
  { rewrite Hs. apply select_target_one; assumption. }
  split; [exists st; auto|]. split.
  - apply (init_reach_break hyper score zc nsnps cmax target hp st Hi Hc).
    apply body_empty_selection. exact Hsel.
  - simpl. unfold singletons. rewrite length_map, length_range. reflexivity.
Qed.

Lemma target_one_returns_levels_0_and_1_witness :
  (exists st,
     init unit score_one 3 tt = Some st /\
     stopping_check 1 st = false /\
     select (prob st) (probsum st) 1 = None) /\
  create unit score_one create_zstates 3 4 1 tt false
  = Some (Returned ([[]] ++ singletons 3), [[[]] ++ singletons 3]) /\
  length ([[]] ++ singletons 3) = S (Z.to_nat 3).
Proof.
  apply (target_one_returns_levels_0_and_1
           unit score_one create_zstates 3 4 1%Q tt).
  - reflexivity.
  - lia.
  - lia.
  - intros zs. apply length_map.
  - intros zs. unfold score_one. apply Forall_forall. intros x Hx.
    apply in_map_iff in Hx. destruct Hx as [s [<- _]]. discriminate.
Defined.

(** ** Levels 0 and 1, the covariate locus, the configuration *)

Lemma nth_error_singletons (nsnps : Z) (i : nat) :
  (i < Z.to_nat nsnps)%nat ->
  nth_error (singletons nsnps) i = Some [Z.of_nat i].
Proof.
  intros Hi. unfold singletons, range.
  apply (map_nth_error (fun x : Z => [x])).
  apply (map_nth_error Z.of_nat).
  rewrite (nth_error_nth' _ O) by (rewrite length_seq; assumption).
  rewrite seq_nth by assumption. reflexivity.
Qed.

Lemma length_singletons (nsnps : Z) :
  length (singletons nsnps) = Z.to_nat nsnps.
Proof. unfold singletons. rewrite length_map. apply length_range. Qed.

Lemma NoDup_singletons (nsnps : Z) : NoDup (singletons nsnps).
Proof.
  apply NoDup_nth_error. intros i j Hi E. rewrite length_singletons in Hi.
  rewrite nth_error_singletons in E by assumption.
  destruct (Nat.lt_ge_cases j (Z.to_nat nsnps)) as [Hj|Hj].
  - rewrite nth_error_singletons in E by assumption.
    injection E as E. lia.
  - assert (nth_error (singletons nsnps) j = None) as E'
        by (apply nth_error_None; rewrite length_singletons; assumption).
    rewrite E' in E. discriminate E.
Qed.

Lemma singletons_nonpos (nsnps : Z) : nsnps <= 0 -> singletons nsnps = [].
Proof.
  intros H. unfold singletons, range.
  replace (Z.to_nat nsnps) with O by lia. reflexivity.
Qed.

Lemma create_small_cmax
      (hyper : Type) (score : hyper -> list State -> list Q)
      (zc : Z -> Z -> Z -> list State -> list State)
      (nsnps cmax : Z) (target : Q) (hp : hyper) :
  cmax <= 1 ->
  create hyper score zc nsnps cmax target hp false
  = Some (Returned ([[]] ++ singletons nsnps), []).
Proof.
  intros H. unfold create. simpl negb. cbv iota.
  destruct (Z.gtb_spec cmax 1); [lia | reflexivity].
Qed.

(** Whatever [create] returns for a SNP locus starts with levels 0 and 1. *)
Lemma create_returns_levels_0_1
      (hyper : Type) (score : hyper -> list State -> list Q)
      (zc : Z -> Z -> Z -> list State -> list State)
      (nsnps cmax : Z) (target : Q) (hp : hyper)
      (zs : list State) (tr : trace) :
  create hyper score zc nsnps cmax target hp false = Some (Returned zs, tr) ->
  exists rest, zs = [[]] ++ singletons nsnps ++ rest.
Proof.
  unfold create. simpl negb. cbv iota.
  destruct (cmax >? 1).
  - destruct (init hyper score nsnps hp) as [st|] eqn:Hi; [|discriminate].
    intros H. apply while_loop_extends in H. destruct H as [_ H].
    destruct (H zs eq_refl) as [rest ->].
    apply init_Some in Hi. destruct Hi as [-> _]. exists rest. reflexivity.
  - intros H; injection H as <- _. exists []. rewrite app_nil_r. reflexivity.
Qed.

(** C5.  For at least one SNP, [cmax >= 1] and a SNP locus, every collection
    that [create] returns, and the collection of every loop state, begins
    with level 0, the empty state alone, followed by level 1, the [nsnps]
    distinct singletons [[0]], [[1]], ... in this order; and when [cmax = 1]
    [create] returns exactly these [1 + nsnps] states without any scorer
    call. *)
Theorem collection_begins_with_levels_0_and_1
        (hyper : Type) (score : hyper -> list State -> list Q)
        (zc : Z -> Z -> Z -> list State -> list State)
        (nsnps cmax : Z) (target : Q) (hp : hyper) :
  1 <= nsnps -> 1 <= cmax ->
  (forall zs tr,
      create hyper score zc nsnps cmax target hp false = Some (Returned zs, tr) ->
      exists rest, zs = [[]] ++ singletons nsnps ++ rest) /\
  (forall levels st,
      reach hyper score zc nsnps cmax target hp levels st ->
      exists later,
        levels = [[[]]; singletons nsnps] ++ later /\
        zstates st = [[]] ++ singletons nsnps ++ concat later) /\
  length (singletons nsnps) = Z.to_nat nsnps /\
  (forall i, (i < Z.to_nat nsnps)%nat ->
             nth_error (singletons nsnps) i = Some [Z.of_nat i]) /\
  NoDup (singletons nsnps) /\
  (cmax = 1 ->
   create hyper score zc nsnps cmax target hp false
   = Some (Returned ([[]] ++ singletons nsnps), [])).
Proof.
  intros Hn Hc.
  split; [intros zs tr; apply create_returns_levels_0_1|].
  split.
  { intros levels st Hr. pose proof (reach_zstates _ _ _ _ _ _ _ _ _ Hr) as Hz.
    apply reach_first_levels in Hr. destruct Hr as [later ->].
    exists later. split; [reflexivity|]. rewrite Hz. reflexivity. }
  split; [apply length_singletons|].
  split; [intros i; apply nth_error_singletons|].
  split; [apply NoDup_singletons|].
  intros ->. apply create_small_cmax. lia.
Qed.

Lemma collection_begins_with_levels_0_and_1_witness :
  (forall zs tr,
      create unit score_one create_zstates 3 1 (1 # 2) tt false
      = Some (Returned zs, tr) ->
      exists rest, zs = [[]] ++ singletons 3 ++ rest) /\
  (forall levels st,
      reach unit score_one create_zstates 3 1 (1 # 2) tt levels st ->
      exists later,
        levels = [[[]]; singletons 3] ++ later /\
        zstates st = [[]] ++ singletons 3 ++ concat later) /\
  length (singletons 3) = Z.to_nat 3 /\
  (forall i, (i < Z.to_nat 3)%nat ->
             nth_error (singletons 3) i = Some [Z.of_nat i]) /\
  NoDup (singletons 3) /\
  (1 = 1 ->
   create unit score_one create_zstates 3 1 (1 # 2) tt false
   = Some (Returned ([[]] ++ singletons 3), [])).
Proof.
  apply (collection_begins_with_levels_0_and_1
           unit score_one create_zstates 3 1 (1 # 2)%Q tt); lia.
Defined.

(** C6.  For a covariate locus [create] makes no search and no scorer
    call: it returns one state, which holds exactly the items of
    [[0, nsnps)] in increasing order; for 5 SNPs the result is
    [[[0; 1; 2; 3; 4]]]. *)
Theorem covariate_locus_returns_all_items
        (hyper : Type) (score : hyper -> list State -> list Q)
        (zc : Z -> Z -> Z -> list State -> list State)
        (nsnps cmax : Z) (target : Q) (hp : hyper) :
  create hyper score zc nsnps cmax target hp true
  = Some (Returned [range nsnps], []) /\
  (forall x, In x (range nsnps) <-> 0 <= x < nsnps) /\
  length (range nsnps) = Z.to_nat nsnps /\
  create hyper score zc 5 cmax target hp true
  = Some (Returned [[0; 1; 2; 3; 4]], []).
Proof.
  split; [reflexivity|]. split; [intros x; apply In_range|].
  split; [apply length_range | reflexivity].
Qed.

(** C7 as the specification words it does not hold.  A configuration with
    [nsnps < 0], [cmax < 1] and [target = 2] is answered with a collection; with [target = 2] and [cmax = 2] the scorer
    is called; and with [nsnps = -1] the only failure is the [IndexError]
    of line 90, after the scorer call. *)
Lemma invalid_configuration_is_not_refused :
  create unit score_one create_zstates (-1) 0 2 tt false
  = Some (Returned [[]], []) /\
  create unit score_one create_zstates 2 2 2 tt false
  = Some (Returned [[]; [0]; [1]], [[[]; [0]; [1]]]) /\
  create unit score_one create_zstates (-1) 2 (1 # 2) tt false
  = Some (Raised IndexError, [[[]]]).
Proof. repeat split; reflexivity. Qed.

(** C7.  [create] does not examine its configuration.  When
    [cmax <= 1] it returns levels 0 and 1 without a scorer call, for every
    [nsnps] and every [target]; level 1 is empty when [nsnps <= 0].  When
    [cmax > 1] the scorer is called on levels 0 and 1 before anything else
    can happen, for every [nsnps] and every [target]. *)
Theorem configuration_is_not_checked
        (hyper : Type) (score : hyper -> list State -> list Q)
        (zc : Z -> Z -> Z -> list State -> list State)
        (nsnps cmax : Z) (target : Q) (hp : hyper) :
  (cmax <= 1 ->
   create hyper score zc nsnps cmax target hp false
   = Some (Returned ([[]] ++ singletons nsnps), [])) /\
  (nsnps <= 0 -> singletons nsnps = []) /\
  (1 < cmax ->
   exists o later,
     create hyper score zc nsnps cmax target hp false
     = Some (o, later ++ [[[]] ++ singletons nsnps])).
Proof.
  split; [apply create_small_cmax|].
  split; [apply singletons_nonpos|].
  intros Hc. unfold create. simpl negb. cbv iota.
  destruct (Z.gtb_spec cmax 1); [|lia].
  destruct (init hyper score nsnps hp) as [st|] eqn:Hi.
  - destruct (while_loop_total hyper score zc nsnps cmax target hp
                               (Z.to_nat (cmax - 1)) st) as [[o tr] Hw].
    { apply init_Some in Hi. destruct Hi as [_ [_ [_ [_ [_ [-> _]]]]]]. lia. }
    rewrite Hw. apply while_loop_extends in Hw. destruct Hw as [[more ->] _].
    apply init_Some in Hi. destruct Hi as [Hz [_ [_ [_ [_ [_ ->]]]]]].
    rewrite Hz. exists o, more. reflexivity.
  - exists (Raised IndexError), []. reflexivity.
Qed.

Lemma configuration_is_not_checked_witness :
  create unit score_one create_zstates (-1) 0 2 tt false
  = Some (Returned ([[]] ++ singletons (-1)), []) /\
  singletons (-1) = [] /\
  exists o later,
    create unit score_one create_zstates (-1) 2 2 tt false
    = Some (o, later ++ [[[]] ++ singletons (-1)]).
Proof.
  split; [|split].
  - apply (proj1 (configuration_is_not_checked
                    unit score_one create_zstates (-1) 0 2%Q tt)). lia.
  - apply (proj1 (proj2 (configuration_is_not_checked
                           unit score_one create_zstates (-1) 0 2%Q tt))). lia.
  - apply (proj2 (proj2 (configuration_is_not_checked
                           unit score_one create_zstates (-1) 2 2%Q tt))). lia.
Defined.

(** ** The collection only grows *)

(** The state in which the loop ends is a reachable one. *)
Lemma while_loop_final
      (hyper : Type) (score : hyper -> list State -> list Q)
      (zc : Z -> Z -> Z -> list State -> list State)
      (nsnps cmax : Z) (target : Q) (hp : hyper) (fuel : nat) :
  forall levels st o tr,
    reach hyper score zc nsnps cmax target hp levels st ->
    while_loop hyper score zc nsnps cmax target hp fuel st = Some (o, tr) ->
    exists later st',
      reach hyper score zc nsnps cmax target hp (levels ++ later) st' /\
      tr = calls st' /\
      (forall zs, o = Returned zs -> zs = zstates st').
Proof.
  induction fuel as [|fuel IH]; intros levels st o tr Hr H.
  - simpl in H. destruct (norm st <? cmax); [discriminate|].
    injection H as <- <-. exists [], st. rewrite app_nil_r.
    repeat split; [assumption|]. intros zs E; injection E as <-; reflexivity.
  - simpl in H. destruct (norm st <? cmax) eqn:Hlt.
    + destruct (body hyper score zc nsnps target hp st) as [st1| |e] eqn:E.
      * pose proof (reach_step _ _ _ _ _ _ _ _ _ _ Hr Hlt E) as Hr1.
        destruct (IH _ _ _ _ Hr1 H) as [later [st' [Hr' [Htr Hzs]]]].
        exists (oldk st1 :: later), st'.
        rewrite <- app_assoc in Hr'. simpl in Hr'. auto.
      * injection H as <- <-. exists [], st. rewrite app_nil_r.
        repeat split; [assumption|].
        intros zs E'; injection E' as <-; reflexivity.
      * injection H as <- <-. exists [], st. rewrite app_nil_r.
        repeat split; [assumption|]. intros zs E'; discriminate E'.
    + injection H as <- <-. exists [], st. rewrite app_nil_r.
      repeat split; [assumption|]. intros zs E; injection E as <-; reflexivity.
Qed.

(** C8.  The collection is append-only.  An iteration that completes
    leaves the collection it found as a prefix and appends the new level to
    it.  At every loop state the collection is the concatenation of the
    levels generated so far, level 0, then level 1, then each new level in
    generation order, so that its length is the sum of the sizes of levels
    0 to [norm]; it never gets shorter.  Whatever [create] finally returns
    extends the collection of every loop state of the run, and is itself
    the collection of such a state. *)
Theorem collection_is_append_only
        (hyper : Type) (score : hyper -> list State -> list Q)
        (zc : Z -> Z -> Z -> list State -> list State)
        (nsnps cmax : Z) (target : Q) (hp : hyper) :
  (forall st st',
      body hyper score zc nsnps target hp st = Continue st' ->
      zstates st' = zstates st ++ oldk st' /\
      (length (zstates st) <= length (zstates st'))%nat) /\
  (forall levels st,
      reach hyper score zc nsnps cmax target hp levels st ->
      zstates st = concat levels /\
      length (zstates st) = list_sum (map (@length State) levels) /\
      Z.of_nat (length levels) = norm st + 1 /\
      oldk st = last levels [] /\
      exists later, levels = [[[]]; singletons nsnps] ++ later) /\
  (forall levels st zs tr,
      reach hyper score zc nsnps cmax target hp levels st ->
      create hyper score zc nsnps cmax target hp false = Some (Returned zs, tr) ->
      exists rest, zs = zstates st ++ rest) /\
  (forall zs tr,
      1 < cmax ->
      create hyper score zc nsnps cmax target hp false = Some (Returned zs, tr) ->
      exists levels st,
        reach hyper score zc nsnps cmax target hp levels st /\
        zs = zstates st /\ tr = calls st).
Proof.
  split; [|split; [|split]].
  - intros st st' Hb. apply body_Continue in Hb.
    destruct Hb as [_ [sel [leadk [_ [_ [_ [_ [Hz _]]]]]]]].
    split; [exact Hz|]. rewrite Hz, length_app. lia.
  - intros levels st Hr.
    pose proof (reach_zstates _ _ _ _ _ _ _ _ _ Hr) as Hz.
    split; [exact Hz|].
    split; [rewrite Hz; apply length_concat|].
    split; [eapply reach_norm; eassumption|].
    split; [eapply reach_oldk; eassumption|].
    eapply reach_first_levels; eassumption.
  - intros levels st zs tr Hr Hc.
    destruct (Z.lt_ge_cases 1 cmax) as [Hlt|Hge].
    + rewrite (reach_create _ _ _ _ _ _ _ _ _ Hr Hlt) in Hc.
      apply while_loop_extends in Hc. destruct Hc as [_ Hc].
      apply Hc. reflexivity.
    + rewrite create_small_cmax in Hc by assumption. injection Hc as <- _.
      exists []. rewrite app_nil_r.
      destruct Hr as [st Hi|levels st st' Hr Hn _].
      * apply init_Some in Hi. destruct Hi as [-> _]. reflexivity.
      * apply reach_norm_pos in Hr. apply Z.ltb_lt in Hn. lia.
  - intros zs tr Hc H. unfold create in H. simpl negb in H. cbv iota in H.
    destruct (Z.gtb_spec cmax 1); [|lia].
    destruct (init hyper score nsnps hp) as [st0|] eqn:Hi; [|discriminate].
    pose proof (reach_init hyper score zc nsnps cmax target hp st0 Hi) as Hr.
    destruct (while_loop_final _ _ _ _ _ _ _ _ _ _ _ _ Hr H)
      as [later [st' [Hr' [Htr Hzs]]]].
    exists ([[[]]; singletons nsnps] ++ later), st'.
    split; [exact Hr'|]. split; [apply Hzs; reflexivity | exact Htr].
Qed.

Lemma collection_is_append_only_witness :
  (zstates upto1_level2 = zstates upto1_level1 ++ oldk upto1_level2 /\
   (length (zstates upto1_level1) <= length (zstates upto1_level2))%nat) /\
  (zstates upto1_level2 = concat [[[]]; singletons 4; oldk upto1_level2] /\
   length (zstates upto1_level2)
   = list_sum (map (@length State) [[[]]; singletons 4; oldk upto1_level2]) /\
   Z.of_nat (length [[[]]; singletons 4; oldk upto1_level2])
   = norm upto1_level2 + 1 /\
   oldk upto1_level2 = last [[[]]; singletons 4; oldk upto1_level2] [] /\
   exists later,
     [[[]]; singletons 4; oldk upto1_level2] = [[[]]; singletons 4] ++ later).
Proof.
  split.
  - apply (proj1 (collection_is_append_only
                    unit score_upto1 create_zstates 4 3 (49 # 50) tt)).
    reflexivity.
  - apply (proj1 (proj2 (collection_is_append_only
                           unit score_upto1 create_zstates 4 3 (49 # 50) tt))).
    exact upto1_level2_reached.
Defined.

(** ** Leader extraction stays in bounds *)


Lemma In_firstn {A : Type} (n : nat) (l : list A) (x : A) :
  In x (firstn n l) -> In x l.
Proof.
  intros H. rewrite <- (firstn_skipn n l). apply in_or_app. left; assumption.
Qed.

Lemma select_in_range (prob : list Q) (probsum target : Q) (sel : list nat) :
  select prob probsum target = Some sel ->
  sel <> [] /\ Forall (fun i => (i < length prob)%nat) sel.
Proof.
  intros H. destruct (select_length _ _ _ _ H) as [Hlen [n0 [Hn0 Hsel]]].
  split; [intros ->; simpl in Hlen; lia|].
  apply Forall_forall. intros i Hi. rewrite Hsel in Hi.
  apply (Permutation_in _ (np_sort_perm _)) in Hi.
  apply In_firstn in Hi.
  apply (Permutation_in _ (ranking_perm prob)) in Hi.
  apply in_seq in Hi. lia.
Qed.




Lemma take_leaders_incl (oldk : list State) (sel : list nat) (leadk : list State) :
  take_leaders oldk sel = Some leadk ->
  incl leadk oldk /\ length leadk = length sel.
Proof.
  intros H. apply take_leaders_Some in H. destruct H as [-> HF].
  split; [|apply length_map].
  intros s Hs. apply in_map_iff in Hs. destruct Hs as [i [<- Hi]].
  rewrite Forall_forall in HF. apply nth_In. apply HF; assumption.
Qed.

Section Bounds.

Variable hyper : Type.
Variable score : hyper -> list State -> list Q.
Variable zc : Z -> Z -> Z -> list State -> list State.
Variables nsnps cmax : Z.
Variable target : Q.
Variable hp : hyper.

Hypothesis zc_contract : expansion_contract zc.
Hypothesis one_score_per_state : forall zs, length (score hp zs) = length zs.
Hypothesis some_snp : 1 <= nsnps.










End Bounds.








(** ** The levels of a run *)

Lemma extension_of_incl (nsnps : Z) (l1 l2 : list State) (s : State) :
  incl l1 l2 -> extension_of nsnps l1 s -> extension_of nsnps l2 s.
Proof.
  intros Hincl [lead [item [Hl H]]]. exists lead, item.
  split; [apply Hincl; assumption | exact H].
Qed.

Lemma nth_error_last {A : Type} (l : list A) (d : A) :
  l <> [] -> nth_error l (length l - 1) = Some (last l d).
Proof.
  intros H. destruct (exists_last H) as [l' [x ->]].
  rewrite last_last, length_app. simpl.
  rewrite nth_error_app2 by lia.
  replace (length l' + 1 - 1 - length l')%nat with O by lia. reflexivity.
Qed.

(** A canonical state over [nsnps] SNPs has at most [nsnps] items. *)
Lemma canonical_length (nsnps : Z) (s : State) :
  canonical nsnps s -> s <> [] -> Z.of_nat (length s) <= nsnps.
Proof.
  intros [Hi Hr] Hne.
  assert (incl s (range nsnps)) as Hincl.
  { intros x Hx. apply In_range. rewrite Forall_forall in Hr. apply Hr; assumption. }
  apply (NoDup_incl_length (increasing_NoDup _ Hi)) in Hincl.
  rewrite length_range in Hincl.
  destruct s as [|x t]; [congruence|]. inversion Hr; subst. simpl in *. lia.
Qed.

Section Levels.

Variable hyper : Type.
Variable score : hyper -> list State -> list Q.
Variable zc : Z -> Z -> Z -> list State -> list State.
Variables nsnps cmax : Z.
Variable target : Q.
Variable hp : hyper.

Hypothesis zc_contract : expansion_contract zc.

(** What a completed iteration has selected and generated, when the leader
    pool it started from was made of canonical states of [norm] items. *)
Lemma step_new_level (st st' : loop_state) :
  Forall (fun s => canonical nsnps s /\ Z.of_nat (length s) = norm st) (oldk st) ->
  body hyper score zc nsnps target hp st = Continue st' ->
  exists sel leadk,
    select (prob st) (probsum st) target = Some sel /\
    sel <> [] /\
    take_leaders (oldk st) sel = Some leadk /\
    incl leadk (oldk st) /\
    length leadk = length sel /\
    oldk st' = map sorted (zc (Z.of_nat (length sel)) (norm st + 1 - 1) nsnps leadk) /\
    (forall s, In s (oldk st') <-> extension_of nsnps leadk s) /\
    Forall (fun s => canonical nsnps s /\ Z.of_nat (length s) = norm st')
           (oldk st') /\
    Forall (fun s => canonical nsnps s /\ Z.of_nat (length s) = norm st) leadk.
Proof.
  intros Hcan Hb. apply body_Continue in Hb.
  destruct Hb as [_ [sel [leadk [Hsel [Hlead [_ [Ho' [_ [_ [_ [_ [Hn' _]]]]]]]]]]]].
  destruct (select_in_range _ _ _ _ Hsel) as [Hsel_ne _].
  destruct (take_leaders_incl _ _ _ Hlead) as [Hincl Hlen].
  assert (Forall (fun s => canonical nsnps s /\ Z.of_nat (length s) = norm st)
                 leadk) as Hleaders.
  { rewrite Forall_forall in *. intros s Hs0. apply Hcan. apply Hincl. assumption. }
  assert (Forall (canonical nsnps) leadk) as Hleaders_can.
  { eapply Forall_impl; [|exact Hleaders]. simpl. tauto. }
  assert (forall s, In s (oldk st') <-> extension_of nsnps leadk s) as Hnew.
  { intros s. rewrite Ho'. apply zc_contract. assumption. }
  exists sel, leadk.
  split; [assumption|]. split; [assumption|]. split; [assumption|].
  split; [assumption|]. split; [assumption|]. split; [assumption|].
  split; [assumption|]. split; [|assumption].
  apply Forall_forall. intros s Hs0. apply Hnew in Hs0.
  apply extension_insert in Hs0; [|assumption].
  destruct Hs0 as [lead [item [Hl [Hr [Hni ->]]]]].
  rewrite Forall_forall in Hleaders. destruct (Hleaders _ Hl) as [Hc Hlen0].
  split; [apply canonical_insert; assumption|].
  rewrite length_insert_sorted. lia.
Qed.

(** Level [j] of a run is made of canonical states of exactly [j] items,
    each of which extends a state of level [j - 1] by one item. *)
Lemma reach_levels (levels : list (list State)) (st : loop_state) :
  reach hyper score zc nsnps cmax target hp levels st ->
  Forall (fun s => canonical nsnps s /\ Z.of_nat (length s) = norm st) (oldk st) /\
  (forall j lv, nth_error levels j = Some lv ->
                Forall (fun s => canonical nsnps s /\ length s = j) lv) /\
  (forall j prev lv,
      nth_error levels j = Some prev -> nth_error levels (S j) = Some lv ->
      Forall (extension_of nsnps prev) lv).
Proof.
  induction 1 as [st Hi|levels st st' Hr [IHo [IHl IHp]] Hlt Hb].
  - apply init_Some in Hi. destruct Hi as [_ [Ho [_ [_ [_ [Hn _]]]]]].
    assert (forall s, In s (singletons nsnps) ->
                      exists i, 0 <= i < nsnps /\ s = [i]) as Hsing.
    { intros s Hs. unfold singletons in Hs. apply in_map_iff in Hs.
      destruct Hs as [i [<- Hi]]. apply In_range in Hi. exists i. auto. }
    split; [|split].
    + rewrite Ho, Hn. apply Forall_forall. intros s Hs.
      destruct (Hsing s Hs) as [i [Hi ->]]. split; [|reflexivity].
      split; [constructor | constructor; [assumption | constructor]].
    + intros [|[|j]] lv E; simpl in E.
      * injection E as <-. constructor; [|constructor].
        split; [split; constructor | reflexivity].
      * injection E as <-. apply Forall_forall. intros s Hs.
        destruct (Hsing s Hs) as [i [Hi ->]]. split; [|reflexivity].
        split; [constructor | constructor; [assumption | constructor]].
      * destruct j; discriminate E.
    + intros [|[|j]] prev lv Ep El; simpl in Ep, El.
      * injection Ep as <-. injection El as <-. apply Forall_forall.
        intros s Hs. destruct (Hsing s Hs) as [i [Hi ->]].
        exists [], i. repeat split; try assumption; try lia.
        -- left; reflexivity.
        -- intros [].
        -- constructor.
        -- intros [<-|[]]; left; reflexivity.
        -- intros [->|[]]; left; reflexivity.
      * discriminate El.
      * destruct j; discriminate Ep.
  - pose proof (reach_norm _ _ _ _ _ _ _ _ _ Hr) as Hnorm.
    pose proof (reach_oldk _ _ _ _ _ _ _ _ _ Hr) as Hold.
    assert (2 <= length levels)%nat as Hlen2.
    { destruct (reach_first_levels _ _ _ _ _ _ _ _ _ Hr) as [later ->].
      rewrite length_app. simpl. lia. }
    destruct (step_new_level st st' IHo Hb)
      as [sel [leadk [_ [_ [_ [Hincl [_ [_ [Hnew [Hcan' _]]]]]]]]]].
    assert (norm st' = norm st + 1) as Hn'.
    { apply body_Continue in Hb.
      destruct Hb as [_ [? [? [_ [_ [_ [_ [_ [_ [_ [_ [Hn' _]]]]]]]]]]]]. exact Hn'. }
    split; [exact Hcan'|]. split.
    + intros j lv E. destruct (Nat.lt_ge_cases j (length levels)) as [Hj|Hj].
      * rewrite nth_error_app1 in E by assumption. eapply IHl; eassumption.
      * rewrite nth_error_app2 in E by assumption.
        destruct (j - length levels)%nat as [|d] eqn:Ed.
        -- injection E as <-. eapply Forall_impl; [|exact Hcan'].
           simpl. intros s [Hc Hlen]. split; [assumption | lia].
        -- destruct d; discriminate E.
    + intros j prev lv Ep El.
      destruct (Nat.lt_ge_cases (S j) (length levels)) as [Hj|Hj].
      * rewrite nth_error_app1 in Ep by lia.
        rewrite nth_error_app1 in El by assumption. eapply IHp; eassumption.
      * rewrite nth_error_app2 in El by assumption.
        destruct (S j - length levels)%nat as [|d] eqn:Ed;
          [|destruct d; discriminate El].
        injection El as <-.
        assert (j = (length levels - 1)%nat) as -> by lia.
        rewrite nth_error_app1 in Ep by lia.
        rewrite (nth_error_last levels []) in Ep
          by (intros ->; simpl in Hlen2; lia).
        injection Ep as <-. rewrite <- Hold.
        apply Forall_forall. intros s Hs. apply Hnew in Hs.
        eapply extension_of_incl; eassumption.
Qed.

(** The loop never goes past [cmax]. *)
Lemma reach_norm_le (levels : list (list State)) (st : loop_state) :
  reach hyper score zc nsnps cmax target hp levels st ->
  norm st <= Z.max cmax 1.
Proof.
  induction 1 as [st Hi|levels st st' Hr IH Hlt Hb].
  - apply init_Some in Hi. destruct Hi as [_ [_ [_ [_ [_ [-> _]]]]]]. lia.
  - apply Z.ltb_lt in Hlt. apply body_Continue in Hb.
    destruct Hb as [_ [? [? [_ [_ [_ [_ [_ [_ [_ [_ [Hn' _]]]]]]]]]]]]. lia.
Qed.

End Levels.

(** ** How and where a run ends *)

(** The loop ends in a reachable state: at [norm >= cmax], at a [break], or
    at an exception of the loop body. *)
Lemma while_loop_end
      (hyper : Type) (score : hyper -> list State -> list Q)
      (zc : Z -> Z -> Z -> list State -> list State)
      (nsnps cmax : Z) (target : Q) (hp : hyper) (fuel : nat) :
  forall levels st o tr,
    reach hyper score zc nsnps cmax target hp levels st ->
    while_loop hyper score zc nsnps cmax target hp fuel st = Some (o, tr) ->
    exists later st',
      reach hyper score zc nsnps cmax target hp (levels ++ later) st' /\
      tr = calls st' /\
      ((o = Returned (zstates st') /\
        (cmax <= norm st' \/
         (norm st' < cmax /\ body hyper score zc nsnps target hp st' = Break))) \/
       (exists e, o = Raised e /\ norm st' < cmax /\
                  body hyper score zc nsnps target hp st' = Raise e)).
Proof.
  induction fuel as [|fuel IH]; intros levels st o tr Hr H.
  - simpl in H. destruct (Z.ltb_spec (norm st) cmax); [discriminate|].
    injection H as <- <-. exists [], st. rewrite app_nil_r.
    split; [assumption|]. split; [reflexivity|]. left. split; [reflexivity|].
    left. assumption.
  - simpl in H. destruct (Z.ltb_spec (norm st) cmax) as [Hlt|Hge].
    + destruct (body hyper score zc nsnps target hp st) as [st1| |e] eqn:E.
      * assert (reach hyper score zc nsnps cmax target hp
                      (levels ++ [oldk st1]) st1) as Hr1
            by (eapply reach_step; [eassumption | apply Z.ltb_lt; lia | assumption]).
        destruct (IH _ _ _ _ Hr1 H) as [later [st' [Hr' H']]].
        exists (oldk st1 :: later), st'.
        rewrite <- app_assoc in Hr'. simpl in Hr'. split; assumption.
      * injection H as <- <-. exists [], st. rewrite app_nil_r.
        split; [assumption|]. split; [reflexivity|]. left.
        split; [reflexivity|]. right. split; assumption.
      * injection H as <- <-. exists [], st. rewrite app_nil_r.
        split; [assumption|]. split; [reflexivity|]. right. exists e.
        split; [reflexivity|]. split; assumption.
    + injection H as <- <-. exists [], st. rewrite app_nil_r.
      split; [assumption|]. split; [reflexivity|]. left. split; [reflexivity|].
      left. assumption.
Qed.

Lemma create_enters_loop
      (hyper : Type) (score : hyper -> list State -> list Q)
      (zc : Z -> Z -> Z -> list State -> list State)
      (nsnps cmax : Z) (target : Q) (hp : hyper) (st : loop_state) :
  1 < cmax -> init hyper score nsnps hp = Some st ->
  create hyper score zc nsnps cmax target hp false
  = while_loop hyper score zc nsnps cmax target hp (Z.to_nat (cmax - 1)) st.
Proof.
  intros Hc Hi. unfold create. simpl negb. cbv iota.
  destruct (Z.gtb_spec cmax 1); [|lia]. rewrite Hi. reflexivity.
Qed.

Lemma create_init_fails
      (hyper : Type) (score : hyper -> list State -> list Q)
      (zc : Z -> Z -> Z -> list State -> list State)
      (nsnps cmax : Z) (target : Q) (hp : hyper) :
  1 < cmax -> init hyper score nsnps hp = None ->
  create hyper score zc nsnps cmax target hp false
  = Some (Raised IndexError, [[[]] ++ singletons nsnps]).
Proof.
  intros Hc Hi. unfold create. simpl negb. cbv iota.
  destruct (Z.gtb_spec cmax 1); [|lia]. rewrite Hi. reflexivity.
Qed.

(** The states of the two first levels. *)
Lemma initial_levels_canonical (nsnps : Z) (j : nat) (lv : list State) :
  nth_error [[[]]; singletons nsnps] j = Some lv ->
  Forall (fun s => canonical nsnps s /\ length s = j) lv.
Proof.
  destruct j as [|[|j]]; simpl; intros E.
  - injection E as <-. constructor; [|constructor].
    split; [split; constructor | reflexivity].
  - injection E as <-. apply Forall_forall. intros s Hs.
    unfold singletons in Hs. apply in_map_iff in Hs.
    destruct Hs as [i [<- Hi]]. apply In_range in Hi. split; [|reflexivity].
    split; [constructor | constructor; [assumption | constructor]].
  - destruct j; discriminate E.
Qed.

Lemma initial_levels_extend (nsnps : Z) (j : nat) (prev lv : list State) :
  nth_error [[[]]; singletons nsnps] j = Some prev ->
  nth_error [[[]]; singletons nsnps] (S j) = Some lv ->
  Forall (extension_of nsnps prev) lv.
Proof.
  destruct j as [|[|j]]; simpl; intros Ep El.
  - injection Ep as <-. injection El as <-. apply Forall_forall.
    intros s Hs. unfold singletons in Hs. apply in_map_iff in Hs.
    destruct Hs as [i [<- Hi]]. apply In_range in Hi.
    exists [], i. split; [left; reflexivity|]. split; [assumption|].
    split; [intros []|]. split; [constructor|].
    intros x; split; [intros [<-|[]]; left; reflexivity
                     | intros [->|[]]; left; reflexivity].
  - discriminate El.
  - destruct j; discriminate Ep.
Qed.

(** The levels behind a returned collection. *)
Lemma create_returned_levels
      (hyper : Type) (score : hyper -> list State -> list Q)
      (zc : Z -> Z -> Z -> list State -> list State)
      (nsnps cmax : Z) (target : Q) (hp : hyper)
      (zs : list State) (tr : trace) :
  create hyper score zc nsnps cmax target hp false = Some (Returned zs, tr) ->
  (cmax <= 1 /\ zs = concat [[[]]; singletons nsnps] /\ tr = []) \/
  (1 < cmax /\
   exists levels st,
     reach hyper score zc nsnps cmax target hp levels st /\
     zs = concat levels /\ tr = calls st).
Proof.
  intros H. destruct (Z.lt_ge_cases 1 cmax) as [Hc|Hc].
  - right. split; [assumption|].
    destruct (init hyper score nsnps hp) as [st0|] eqn:Hi.
    + rewrite (create_enters_loop _ _ _ _ _ _ _ _ Hc Hi) in H.
      pose proof (reach_init hyper score zc nsnps cmax target hp st0 Hi) as Hr.
      destruct (while_loop_final _ _ _ _ _ _ _ _ _ _ _ _ Hr H)
        as [later [st' [Hr' [Htr Hzs]]]].
      exists ([[[]]; singletons nsnps] ++ later), st'.
      split; [exact Hr'|]. split; [|exact Htr].
      rewrite (Hzs zs eq_refl). eapply reach_zstates; eassumption.
    + rewrite (create_init_fails _ _ _ _ _ _ _ Hc Hi) in H. discriminate H.
  - left. rewrite create_small_cmax in H by assumption.
    injection H as <- <-. split; [assumption|]. split; [|reflexivity].
    simpl. rewrite app_nil_r. reflexivity.
Qed.

(** ** What a returned collection is made of *)

(** Whenever [create] returns a collection for a SNP locus, and the
    expansion routine meets its contract, the collection is the
    concatenation of levels 0, 1, ..., at most [max cmax 1], and level [j]
    holds only canonical states (strictly increasing items of
    [[0, nsnps)]) of exactly [j] items.  No returned state has more than
    [max cmax 1] items. *)
Theorem returned_levels_are_canonical
        (hyper : Type) (score : hyper -> list State -> list Q)
        (zc : Z -> Z -> Z -> list State -> list State)
        (nsnps cmax : Z) (target : Q) (hp : hyper)
        (zs : list State) (tr : trace) :
  expansion_contract zc ->
  create hyper score zc nsnps cmax target hp false = Some (Returned zs, tr) ->
  exists levels,
    zs = concat levels /\
    (2 <= length levels)%nat /\
    Z.of_nat (length levels) <= Z.max cmax 1 + 1 /\
    (forall j lv, nth_error levels j = Some lv ->
                  Forall (fun s => canonical nsnps s /\ length s = j) lv) /\
    Forall (fun s => canonical nsnps s /\ Z.of_nat (length s) <= Z.max cmax 1) zs.
Proof.
  intros Hcontract H.
  assert (exists levels,
             zs = concat levels /\ (2 <= length levels)%nat /\
             Z.of_nat (length levels) <= Z.max cmax 1 + 1 /\
             (forall j lv, nth_error levels j = Some lv ->
                           Forall (fun s => canonical nsnps s /\ length s = j) lv))
    as [levels [Hz [H2 [Hmax Hlv]]]].
  { destruct (create_returned_levels _ _ _ _ _ _ _ _ _ H)
      as [[Hc [-> _]]|[Hc [levels [st [Hr [-> _]]]]]].
    - exists [[[]]; singletons nsnps]. split; [reflexivity|].
      split; [simpl; lia|]. split; [simpl; lia|].
      apply initial_levels_canonical.
    - exists levels. split; [reflexivity|].
      pose proof (reach_norm _ _ _ _ _ _ _ _ _ Hr) as Hn.
      pose proof (reach_norm_le _ _ _ _ _ _ _ _ _ Hr) as Hle.
      pose proof (reach_norm_pos _ _ _ _ _ _ _ _ _ Hr) as Hpos.
      split; [lia|]. split; [lia|].
      apply (reach_levels _ _ _ _ _ _ _ Hcontract _ _ Hr). }
  exists levels. repeat split; try assumption.
  rewrite Hz. apply Forall_forall. intros s Hs. apply in_concat in Hs.
  destruct Hs as [lv [Hin Hs]]. apply In_nth_error in Hin.
  destruct Hin as [j Hj].
  assert (j < length levels)%nat as Hjl by (apply nth_error_Some; congruence).
  specialize (Hlv j lv Hj). rewrite Forall_forall in Hlv.
  destruct (Hlv s Hs) as [Hc Hlen]. split; [assumption | lia].
Qed.

Lemma returned_levels_are_canonical_witness :
  exists levels,
    [[]; [0]; [1]; [2]; [3]; [0; 1]; [0; 2]; [0; 3]; [1; 2]; [1; 3]; [2; 3]]
    = concat levels /\
    (2 <= length levels)%nat /\
    Z.of_nat (length levels) <= Z.max 3 1 + 1 /\
    (forall j lv, nth_error levels j = Some lv ->
                  Forall (fun s => canonical 4 s /\ length s = j) lv) /\
    Forall (fun s => canonical 4 s /\ Z.of_nat (length s) <= Z.max 3 1)
           [[]; [0]; [1]; [2]; [3]; [0; 1]; [0; 2]; [0; 3]; [1; 2]; [1; 3]; [2; 3]].
Proof.
  apply (returned_levels_are_canonical
           unit score_upto1 create_zstates 4 3 (49 # 50) tt
           [[]; [0]; [1]; [2]; [3]; [0; 1]; [0; 2]; [0; 3]; [1; 2]; [1; 3]; [2; 3]]
           (calls upto1_level2)).
  - exact create_zstates_contract.
  - reflexivity.
Defined.

(** Whenever [create] returns a collection, and the expansion routine
    meets its contract, every state of a level is a state of the level
    before it with exactly one more item of [[0, nsnps)]: the singletons
    extend the empty state, and from level 2 on a state extends one of the
    states of the previous level.  Nothing else is ever in the collection. *)
Theorem returned_states_extend_previous_level
        (hyper : Type) (score : hyper -> list State -> list Q)
        (zc : Z -> Z -> Z -> list State -> list State)
        (nsnps cmax : Z) (target : Q) (hp : hyper)
        (zs : list State) (tr : trace) :
  expansion_contract zc ->
  create hyper score zc nsnps cmax target hp false = Some (Returned zs, tr) ->
  exists levels,
    zs = concat levels /\
    nth_error levels 0 = Some [[]] /\
    (forall j prev lv,
        nth_error levels j = Some prev -> nth_error levels (S j) = Some lv ->
        Forall (extension_of nsnps prev) lv).
Proof.
  intros Hcontract H.
  destruct (create_returned_levels _ _ _ _ _ _ _ _ _ H)
    as [[Hc [-> _]]|[Hc [levels [st [Hr [-> _]]]]]].
  - exists [[[]]; singletons nsnps]. split; [reflexivity|].
    split; [reflexivity|]. apply initial_levels_extend.
  - exists levels. split; [reflexivity|]. split.
    + destruct (reach_first_levels _ _ _ _ _ _ _ _ _ Hr) as [later ->].
      reflexivity.
    + apply (reach_levels _ _ _ _ _ _ _ Hcontract _ _ Hr).
Qed.

Lemma returned_states_extend_previous_level_witness :
  exists levels,
    [[]; [0]; [1]; [2]; [3]; [0; 1]; [0; 2]; [0; 3]; [1; 2]; [1; 3]; [2; 3]]
    = concat levels /\
    nth_error levels 0 = Some [[]] /\
    (forall j prev lv,
        nth_error levels j = Some prev -> nth_error levels (S j) = Some lv ->
        Forall (extension_of 4 prev) lv).
Proof.
  apply (returned_states_extend_previous_level
           unit score_upto1 create_zstates 4 3 (49 # 50) tt
           [[]; [0]; [1]; [2]; [3]; [0; 1]; [0; 2]; [0; 3]; [1; 2]; [1; 3]; [2; 3]]
           (calls upto1_level2)).
  - exact create_zstates_contract.
  - reflexivity.
Defined.

(** ** No state twice *)

Lemma create_zstates_emits_once : emits_once create_zstates.
Proof.
  intros nsnps leaders HF nsel k.
  rewrite (map_sorted_canonical nsnps)
    by (apply create_zstates_rows_canonical; assumption).
  apply NoDup_emit.
Qed.

(** Levels without repetition whose states have the level's index as their
    size concatenate without repetition. *)
Lemma NoDup_concat_by_size (levels : list (list State)) (base : nat) :
  Forall (@NoDup State) levels ->
  (forall j lv, nth_error levels j = Some lv ->
                Forall (fun s => length s = (base + j)%nat) lv) ->
  NoDup (concat levels).
Proof.
  revert base; induction levels as [|l rest IH]; intros base Hnd Hsz;
    [constructor|].
  inversion Hnd; subst. simpl. apply NoDup_app.
  - assumption.
  - apply (IH (S base)); [assumption|].
    intros j lv E. specialize (Hsz (S j) lv E).
    eapply Forall_impl; [|exact Hsz]. simpl. intros; lia.
  - intros s Hs Hs'. apply in_concat in Hs'. destruct Hs' as [lv [Hin Hs']].
    apply In_nth_error in Hin. destruct Hin as [j Hj].
    pose proof (Hsz O l eq_refl) as Hl0. pose proof (Hsz (S j) lv Hj) as Hl1.
    rewrite Forall_forall in Hl0, Hl1.
    specialize (Hl0 s Hs). specialize (Hl1 s Hs'). lia.
Qed.

Lemma reach_levels_NoDup
      (hyper : Type) (score : hyper -> list State -> list Q)
      (zc : Z -> Z -> Z -> list State -> list State)
      (nsnps cmax : Z) (target : Q) (hp : hyper)
      (levels : list (list State)) (st : loop_state) :
  expansion_contract zc -> emits_once zc ->
  reach hyper score zc nsnps cmax target hp levels st ->
  Forall (@NoDup State) levels.
Proof.
  intros Hcontract Honce. induction 1 as [st Hi|levels st st' Hr IH Hlt Hb].
  - constructor; [repeat constructor; intros []|].
    constructor; [apply NoDup_singletons | constructor].
  - apply Forall_app. split; [assumption|]. constructor; [|constructor].
    destruct (reach_levels _ _ _ _ _ _ _ Hcontract _ _ Hr) as [Ho _].
    destruct (step_new_level _ _ _ _ _ _ Hcontract st st' Ho Hb)
      as [sel [leadk [_ [_ [_ [_ [_ [-> [_ [_ Hlead]]]]]]]]]].
    apply Honce. eapply Forall_impl; [|exact Hlead]. simpl. tauto.
Qed.

(** Whenever [create] returns a collection, and the expansion routine
    meets both halves of its contract (it writes the one-item extensions of
    its leaders, none twice), no state occurs twice in the collection. *)
Theorem returned_collection_has_no_duplicates
        (hyper : Type) (score : hyper -> list State -> list Q)
        (zc : Z -> Z -> Z -> list State -> list State)
        (nsnps cmax : Z) (target : Q) (hp : hyper)
        (zs : list State) (tr : trace) :
  expansion_contract zc -> emits_once zc ->
  create hyper score zc nsnps cmax target hp false = Some (Returned zs, tr) ->
  NoDup zs.
Proof.
  intros Hcontract Honce H.
  destruct (create_returned_levels _ _ _ _ _ _ _ _ _ H)
    as [[Hc [-> _]]|[Hc [levels [st [Hr [-> _]]]]]].
  - apply (NoDup_concat_by_size _ O).
    + constructor; [repeat constructor; intros []|].
      constructor; [apply NoDup_singletons | constructor].
    + intros j lv E. apply initial_levels_canonical in E.
      eapply Forall_impl; [|exact E]. simpl. tauto.
  - apply (NoDup_concat_by_size _ O).
    + eapply reach_levels_NoDup; eassumption.
    + intros j lv E.
      apply (reach_levels _ _ _ _ _ _ _ Hcontract _ _ Hr) in E.
      eapply Forall_impl; [|exact E]. simpl. tauto.
Qed.

Lemma returned_collection_has_no_duplicates_witness :
  NoDup [[]; [0]; [1]; [2]; [3]; [0; 1]; [0; 2]; [0; 3]; [1; 2]; [1; 3]; [2; 3]].
Proof.
  apply (returned_collection_has_no_duplicates
           unit score_upto1 create_zstates 4 3 (49 # 50) tt
           [[]; [0]; [1]; [2]; [3]; [0; 1]; [0; 2]; [0; 3]; [1; 2]; [1; 3]; [2; 3]]
           (calls upto1_level2)).
  - exact create_zstates_contract.
  - exact create_zstates_emits_once.
  - reflexivity.
Defined.

(** ** The buffer of line 103 *)

(** A canonical leader has at most [nsnps - length lead] candidates. *)
Lemma length_candidates (nsnps : Z) (lead : State) :
  canonical nsnps lead ->
  (length (candidates nsnps lead) + length lead <= Z.to_nat nsnps)%nat.
Proof.
  intros [Hi Hr]. unfold candidates. rewrite length_map.
  pose proof (filter_length (fun x => memZ x lead) (range nsnps)) as Hsplit.
  cbv beta in Hsplit. rewrite length_range in Hsplit.
  assert (length lead
          <= length (filter (fun x => memZ x lead) (range nsnps)))%nat as Hle.
  { apply NoDup_incl_length; [apply increasing_NoDup; assumption|].
    intros x Hx. apply filter_In. split.
    - apply In_range. rewrite Forall_forall in Hr. apply Hr; assumption.
    - apply memZ_In; assumption. }
  lia.
Qed.

Lemma length_flat_candidates (nsnps : Z) (k : nat) (leadk : list State) :
  Forall (fun s => canonical nsnps s /\ length s = k) leadk ->
  (length (flat_map (candidates nsnps) leadk)
   <= length leadk * (Z.to_nat nsnps - k))%nat.
Proof.
  induction 1 as [|lead t [Hc Hlen] _ IH]; simpl; [lia|].
  rewrite length_app. pose proof (length_candidates nsnps lead Hc). lia.
Qed.

(** The buffer that line 103 sizes and line 104 allocates is large enough:
    if the expansion routine writes only one-item extensions of its leaders,
    none twice, then in every iteration of a run that completes, the
    [newstates * norm] integers of the new level fit in the
    [maxnewsize = nsel * (nsnps - norm + 1) * norm] integers of [newz]
    ([norm] being the norm of the new level). *)
Theorem new_level_fits_buffer
        (hyper : Type) (score : hyper -> list State -> list Q)
        (zc : Z -> Z -> Z -> list State -> list State)
        (nsnps cmax : Z) (target : Q) (hp : hyper)
        (levels : list (list State)) (st st' : loop_state) :
  expansion_contract zc -> emits_once zc ->
  reach hyper score zc nsnps cmax target hp levels st ->
  body hyper score zc nsnps target hp st = Continue st' ->
  exists sel,
    select (prob st) (probsum st) target = Some sel /\
    Z.of_nat (length (oldk st')) <= Z.of_nat (length sel) * (nsnps - norm st' + 1) /\
    Z.of_nat (length (oldk st')) * norm st'
    <= Z.of_nat (length sel) * (nsnps - norm st' + 1) * norm st'.
Proof.
  intros Hcontract Honce Hr Hb.
  destruct (reach_levels _ _ _ _ _ _ _ Hcontract _ _ Hr) as [Ho _].
  pose proof (reach_norm_pos _ _ _ _ _ _ _ _ _ Hr) as Hpos.
  destruct (step_new_level _ _ _ _ _ _ Hcontract st st' Ho Hb)
    as [sel [leadk [Hsel [Hne [_ [_ [Hlen [Ho' [Hnew [_ Hlead]]]]]]]]]].
  assert (norm st' = norm st + 1) as Hn'.
  { apply body_Continue in Hb.
    destruct Hb as [_ [? [? [_ [_ [_ [_ [_ [_ [_ [_ [Hn' _]]]]]]]]]]]]. exact Hn'. }
  exists sel. split; [exact Hsel|].
  assert (Forall (canonical nsnps) leadk) as Hcan
      by (eapply Forall_impl; [|exact Hlead]; simpl; tauto).
  assert (Forall (fun s => canonical nsnps s /\ length s = Z.to_nat (norm st))
                 leadk) as Hlead'.
  { eapply Forall_impl; [|exact Hlead]. simpl. intros s [Hc Hl]. split; [assumption | lia]. }
  assert (norm st <= nsnps) as Hroom.
  { destruct leadk as [|lead t]; [destruct sel; [congruence | discriminate Hlen]|].
    inversion Hlead as [|? ? [Hc Hl] _]; subst.
    rewrite <- Hl. apply canonical_length; [assumption|].
    intros ->. simpl in Hl. lia. }
  assert (length (oldk st') <= length (flat_map (candidates nsnps) leadk))%nat
    as Hcount.
  { apply NoDup_incl_length.
    - rewrite Ho'. apply Honce. assumption.
    - intros s Hs. apply Hnew in Hs. apply extension_insert in Hs; [|assumption].
      destruct Hs as [lead [item [Hl [Hitem [Hni ->]]]]].
      apply in_flat_map. exists lead. split; [assumption|].
      apply In_candidates. exists item. auto. }
  pose proof (length_flat_candidates nsnps _ leadk Hlead') as Hflat.
  assert (Z.of_nat (length (oldk st'))
          <= Z.of_nat (length sel) * (nsnps - norm st' + 1)) as Hrows.
  { rewrite <- Hlen.
    apply (Z.le_trans _ (Z.of_nat (length leadk * (Z.to_nat nsnps - Z.to_nat (norm st)))));
      [lia|].
    rewrite Nat2Z.inj_mul. apply Z.mul_le_mono_nonneg_l; lia. }
  split; [exact Hrows|].
  apply Z.mul_le_mono_nonneg_r; lia.
Qed.

Lemma new_level_fits_buffer_witness :
  exists sel,
    select (prob upto1_level1) (probsum upto1_level1) (49 # 50) = Some sel /\
    Z.of_nat (length (oldk upto1_level2))
    <= Z.of_nat (length sel) * (4 - norm upto1_level2 + 1) /\
    Z.of_nat (length (oldk upto1_level2)) * norm upto1_level2
    <= Z.of_nat (length sel) * (4 - norm upto1_level2 + 1) * norm upto1_level2.
Proof.
  apply (new_level_fits_buffer
           unit score_upto1 create_zstates 4 3 (49 # 50) tt
           [[[]]; singletons 4] upto1_level1 upto1_level2).
  - exact create_zstates_contract.
  - exact create_zstates_emits_once.
  - apply reach_init. reflexivity.
  - reflexivity.
Defined.

(** ** The scorer calls of a run *)

Lemma length_call_history (levels : list (list State)) :
  length (call_history levels) = (length levels - 1)%nat.
Proof. unfold call_history. rewrite length_map, length_rev, length_seq. reflexivity. Qed.

Lemma call_history_snoc (levels : list (list State)) (new : list State) :
  (2 <= length levels)%nat ->
  call_history (levels ++ [new])
  = concat (levels ++ [new]) :: call_history levels.
Proof.
  intros H. unfold call_history. rewrite length_app.
  change (length [new]) with 1%nat.
  replace (length levels + 1 - 1)%nat with (S (length levels - 1)) by lia.
  rewrite seq_S, rev_app_distr.
  change (rev [(2 + (length levels - 1))%nat])
    with [(2 + (length levels - 1))%nat].
  cbn [app map].
  replace (2 + (length levels - 1))%nat with (length (levels ++ [new]))
    by (rewrite length_app; simpl; lia).
  rewrite firstn_all. f_equal.
  apply map_ext_in. intros k Hk. apply in_rev in Hk. apply in_seq in Hk.
  rewrite firstn_app. replace (k - length levels)%nat with O by lia.
  simpl. rewrite app_nil_r. reflexivity.
Qed.

Lemma reach_call_history
      (hyper : Type) (score : hyper -> list State -> list Q)
      (zc : Z -> Z -> Z -> list State -> list State)
      (nsnps cmax : Z) (target : Q) (hp : hyper)
      (levels : list (list State)) (st : loop_state) :
  reach hyper score zc nsnps cmax target hp levels st ->
  calls st = call_history levels.
Proof.
  induction 1 as [st Hi|levels st st' Hr IH Hlt Hb].
  - apply init_Some in Hi. destruct Hi as [Hz [_ [_ [_ [_ [_ ->]]]]]].
    rewrite Hz. unfold call_history. simpl. rewrite app_nil_r. reflexivity.
  - assert (2 <= length levels)%nat as Hlen2.
    { destruct (reach_first_levels _ _ _ _ _ _ _ _ _ Hr) as [later ->].
      rewrite length_app. simpl. lia. }
    rewrite call_history_snoc by assumption. rewrite <- IH.
    rewrite <- (reach_zstates _ _ _ _ _ _ _ _ _
                              (reach_step _ _ _ _ _ _ _ _ _ _ Hr Hlt Hb)).
    apply body_Continue in Hb.
    destruct Hb as [_ [? [? [_ [_ [_ [_ [_ [_ [_ [_ [_ Hc]]]]]]]]]]]]. exact Hc.
Qed.

(** When [cmax > 1], whatever the outcome of [create], the scorer has been
    called exactly once for each level generated from level 1 on, each time
    on the whole collection built up to that level (so the states of a
    level are scored again at every later level), and at most [cmax] times
    in all.  A returned collection is the argument of the last call. *)
Theorem scorer_called_once_per_level
        (hyper : Type) (score : hyper -> list State -> list Q)
        (zc : Z -> Z -> Z -> list State -> list State)
        (nsnps cmax : Z) (target : Q) (hp : hyper)
        (o : outcome) (tr : trace) :
  1 < cmax ->
  create hyper score zc nsnps cmax target hp false = Some (o, tr) ->
  exists levels,
    (exists later, levels = [[[]]; singletons nsnps] ++ later) /\
    tr = call_history levels /\
    S (length tr) = length levels /\
    Z.of_nat (length tr) <= cmax /\
    (forall zs, o = Returned zs -> zs = concat levels /\ hd_error tr = Some zs).
Proof.
  intros Hc H.
  destruct (init hyper score nsnps hp) as [st0|] eqn:Hi.
  - rewrite (create_enters_loop _ _ _ _ _ _ _ _ Hc Hi) in H.
    pose proof (reach_init hyper score zc nsnps cmax target hp st0 Hi) as Hr0.
    destruct (while_loop_final _ _ _ _ _ _ _ _ _ _ _ _ Hr0 H)
      as [later [st [Hr [-> Hzs]]]].
    exists ([[[]]; singletons nsnps] ++ later).
    pose proof (reach_norm _ _ _ _ _ _ _ _ _ Hr) as Hn.
    pose proof (reach_norm_le _ _ _ _ _ _ _ _ _ Hr) as Hle.
    destruct (reach_calls _ _ _ _ _ _ _ _ _ Hr) as [Hlen Hhd].
    split; [exists later; reflexivity|].
    split; [eapply reach_call_history; eassumption|].
    split; [exact Hlen|]. split; [lia|].
    intros zs ->. rewrite (Hzs _ eq_refl).
    split; [eapply reach_zstates; eassumption | exact Hhd].
  - rewrite (create_init_fails _ _ _ _ _ _ _ Hc Hi) in H. injection H as <- <-.
    exists [[[]]; singletons nsnps]. split; [exists []; reflexivity|].
    split; [unfold call_history; simpl; rewrite app_nil_r; reflexivity|].
    split; [reflexivity|]. split; [simpl; lia|]. intros zs E; discriminate E.
Qed.

Lemma scorer_called_once_per_level_witness :
  exists levels,
    (exists later, levels = [[[]]; singletons 4] ++ later) /\
    calls upto1_level2 = call_history levels /\
    S (length (calls upto1_level2)) = length levels /\
    Z.of_nat (length (calls upto1_level2)) <= 3 /\
    (forall zs, Returned (zstates upto1_level2) = Returned zs ->
                zs = concat levels /\ hd_error (calls upto1_level2) = Some zs).
Proof.
  apply (scorer_called_once_per_level
           unit score_upto1 create_zstates 4 3 (49 # 50) tt
           (Returned (zstates upto1_level2)) (calls upto1_level2)).
  - lia.
  - reflexivity.
Defined.

(** ** Raising [cmax] *)

Lemma while_loop_cmax_mono
      (hyper : Type) (score : hyper -> list State -> list Q)
      (zc : Z -> Z -> Z -> list State -> list State)
      (nsnps cmax cmax' : Z) (target : Q) (hp : hyper) (fuel' : nat) :
  cmax <= cmax' ->
  forall fuel st zs' tr',
    (Z.to_nat (cmax - norm st) <= fuel)%nat ->
    while_loop hyper score zc nsnps cmax' target hp fuel' st
    = Some (Returned zs', tr') ->
    exists zs tr rest more,
      while_loop hyper score zc nsnps cmax target hp fuel st
      = Some (Returned zs, tr) /\
      zs' = zs ++ rest /\ tr' = more ++ tr.
Proof.
  intros Hc. induction fuel' as [|fuel' IH]; intros fuel st zs' tr' Hf H.
  - destruct (Z.lt_ge_cases (norm st) cmax) as [Hlt|Hge].
    + simpl in H. destruct (Z.ltb_spec (norm st) cmax'); [discriminate | lia].
    + rewrite while_loop_exit by assumption.
      apply while_loop_extends in H. destruct H as [[more ->] Hz].
      destruct (Hz zs' eq_refl) as [rest ->].
      exists (zstates st), (calls st), rest, more. auto.
  - destruct (Z.lt_ge_cases (norm st) cmax) as [Hlt|Hge].
    + destruct fuel as [|fuel]; [lia|].
      rewrite while_loop_step in H by lia.
      rewrite while_loop_step by assumption.
      destruct (body hyper score zc nsnps target hp st) as [st1| |e] eqn:E.
      * apply (IH fuel st1 zs' tr'); [|exact H].
        apply body_Continue in E.
        destruct E as [_ [? [? [_ [_ [_ [_ [_ [_ [_ [_ [Hn' _]]]]]]]]]]]]. lia.
      * injection H as <- <-. exists (zstates st), (calls st), [], [].
        rewrite app_nil_r. auto.
      * discriminate H.
    + rewrite while_loop_exit by assumption.
      apply while_loop_extends in H. destruct H as [[more ->] Hz].
      destruct (Hz zs' eq_refl) as [rest ->].
      exists (zstates st), (calls st), rest, more. auto.
Qed.

(** [cmax] only cuts the search short: if [create] returns a collection
    with the larger of two values of [cmax], it returns one with the
    smaller value too (all other arguments equal), and that collection is a
    prefix of the first; the scorer calls of the shorter run are the first
    calls of the longer run. *)
Theorem smaller_cmax_returns_prefix
        (hyper : Type) (score : hyper -> list State -> list Q)
        (zc : Z -> Z -> Z -> list State -> list State)
        (nsnps cmax cmax' : Z) (target : Q) (hp : hyper)
        (zs' : list State) (tr' : trace) :
  cmax <= cmax' ->
  create hyper score zc nsnps cmax' target hp false = Some (Returned zs', tr') ->
  exists zs tr rest more,
    create hyper score zc nsnps cmax target hp false = Some (Returned zs, tr) /\
    zs' = zs ++ rest /\ tr' = more ++ tr.
Proof.
  intros Hc H. destruct (Z.lt_ge_cases 1 cmax) as [Hgt|Hle].
  - assert (1 < cmax') as Hgt' by lia.
    destruct (init hyper score nsnps hp) as [st0|] eqn:Hi.
    + rewrite (create_enters_loop _ _ _ _ _ _ _ _ Hgt' Hi) in H.
      rewrite (create_enters_loop _ _ _ _ _ _ _ _ Hgt Hi).
      pose proof (init_Some _ _ _ _ _ Hi) as [_ [_ [_ [_ [_ [Hn _]]]]]].
      eapply while_loop_cmax_mono; [exact Hc | | exact H].
      rewrite Hn. lia.
    + rewrite (create_init_fails _ _ _ _ _ _ _ Hgt' Hi) in H.
      discriminate H.
  - rewrite create_small_cmax by assumption.
    destruct (create_returns_levels_0_1 _ _ _ _ _ _ _ _ _ H) as [rest ->].
    exists ([[]] ++ singletons nsnps), [], rest, tr'.
    split; [reflexivity|]. split; [rewrite app_assoc; reflexivity|].
    symmetry; apply app_nil_r.
Qed.

Lemma smaller_cmax_returns_prefix_witness :
  exists zs tr rest more,
    create unit score_one create_zstates 3 2 (1 # 2) tt false
    = Some (Returned zs, tr) /\
    [[]; [0]; [1]; [2]; [0; 1]; [1; 2]; [0; 2]; [0; 1; 2]] = zs ++ rest /\
    [[[]; [0]; [1]; [2]; [0; 1]; [1; 2]; [0; 2]; [0; 1; 2]];
     [[]; [0]; [1]; [2]; [0; 1]; [1; 2]; [0; 2]];
     [[]; [0]; [1]; [2]]] = more ++ tr.
Proof.
  apply (smaller_cmax_returns_prefix
           unit score_one create_zstates 3 2 4 (1 # 2) tt).
  - lia.
  - reflexivity.
Defined.

(** ** Exceptions *)

Lemma take_leaders_nil (sel : list nat) :
  sel <> [] -> take_leaders [] sel = None.
Proof.
  destruct sel as [|i t]; [congruence|]. intros _. simpl.
  destruct i; reflexivity.
Qed.

(** With an empty leader pool an iteration stops the search or fails at
    the leader extraction. *)
Lemma body_empty_pool
      (hyper : Type) (score : hyper -> list State -> list Q)
      (zc : Z -> Z -> Z -> list State -> list State)
      (nsnps : Z) (target : Q) (hp : hyper) (st : loop_state) :
  oldk st = [] ->
  body hyper score zc nsnps target hp st = Break \/
  (body hyper score zc nsnps target hp st = Raise IndexError /\
   stopping_check target st = false /\
   exists sel, select (prob st) (probsum st) target = Some sel /\ sel <> []).
Proof.
  intros Ho. unfold body. destruct (stopping_check target st); [left; reflexivity|].
  destruct (select (prob st) (probsum st) target) as [sel|] eqn:Hsel;
    [|left; reflexivity].
  destruct (select_in_range _ _ _ _ Hsel) as [Hne _].
  rewrite Ho, (take_leaders_nil sel Hne). right.
  split; [reflexivity|]. split; [reflexivity|]. exists sel. auto.
Qed.

(** The leaders gathered from the leader pool of a run, whatever the
    selected indices are. *)
Lemma leaders_shape
      (hyper : Type) (score : hyper -> list State -> list Q)
      (zc : Z -> Z -> Z -> list State -> list State)
      (nsnps cmax : Z) (target : Q) (hp : hyper)
      (levels : list (list State)) (st : loop_state)
      (sel : list nat) (leadk : list State) :
  expansion_contract zc ->
  reach hyper score zc nsnps cmax target hp levels st ->
  sel <> [] ->
  take_leaders (oldk st) sel = Some leadk ->
  length leadk = length sel /\
  Forall (fun l => canonical nsnps l /\ Z.of_nat (length l) = norm st + 1 - 1)
         leadk /\
  norm st <= nsnps /\
  0 <= Z.of_nat (length sel) * (nsnps - (norm st + 1) + 1) * (norm st + 1).
Proof.
  intros Hcontract Hr Hne Hlead.
  destruct (reach_levels _ _ _ _ _ _ _ Hcontract _ _ Hr) as [Ho _].
  pose proof (reach_norm_pos _ _ _ _ _ _ _ _ _ Hr) as Hpos.
  destruct (take_leaders_incl _ _ _ Hlead) as [Hincl Hlen].
  assert (Forall (fun s => canonical nsnps s /\ Z.of_nat (length s) = norm st)
                 leadk) as Hleaders.
  { rewrite Forall_forall in *. intros s Hs0. apply Ho. apply Hincl. assumption. }
  assert (norm st <= nsnps) as Hroom.
  { destruct leadk as [|lead t]; [destruct sel; [congruence | discriminate Hlen]|].
    inversion Hleaders as [|? ? [Hc Hl] _]; subst.
    rewrite <- Hl. apply canonical_length; [assumption|].
    intros ->. simpl in Hl. lia. }
  split; [exact Hlen|]. split.
  { eapply Forall_impl; [|exact Hleaders]. simpl. intros l [Hc Hl].
    split; [assumption | lia]. }
  split; [exact Hroom|].
  assert (0 <= Z.of_nat (length sel) * (nsnps - (norm st + 1) + 1))
    by (apply Z.mul_nonneg_nonneg; lia).
  apply Z.mul_nonneg_nonneg; lia.
Qed.

(** In a run, with an expansion routine that meets its contract, whatever
    indices are selected, the leaders gathered at line 90 are canonical
    states of [norm - 1] items each, one per selected index, so that line
    102 reshapes an [nsel x (norm - 1)] array; and they leave room in the
    universe, [norm - 1 <= nsnps], so that the size [maxnewsize] of line 103
    is never negative.  The loop body therefore never fails at the reshape
    of line 102 or at the allocation of line 104. *)
Theorem leaders_form_an_array
        (hyper : Type) (score : hyper -> list State -> list Q)
        (zc : Z -> Z -> Z -> list State -> list State)
        (nsnps cmax : Z) (target : Q) (hp : hyper)
        (levels : list (list State)) (st : loop_state)
        (sel : list nat) (leadk : list State) :
  expansion_contract zc ->
  reach hyper score zc nsnps cmax target hp levels st ->
  sel <> [] ->
  take_leaders (oldk st) sel = Some leadk ->
  length leadk = length sel /\
  Forall (fun l => canonical nsnps l /\ Z.of_nat (length l) = norm st + 1 - 1)
         leadk /\
  norm st <= nsnps /\
  0 <= Z.of_nat (length sel) * (nsnps - (norm st + 1) + 1) * (norm st + 1) /\
  body hyper score zc nsnps target hp st <> Raise ValueError.
Proof.
  intros Hcontract Hr Hne Hlead.
  destruct (leaders_shape _ _ _ _ _ _ _ _ _ _ _ Hcontract Hr Hne Hlead)
    as [Hlen [Hshape [Hroom Hsize]]].
  repeat split; try assumption.
  unfold body. destruct (stopping_check target st); [discriminate|].
  destruct (select (prob st) (probsum st) target) as [sel'|] eqn:Hsel;
    [|discriminate].
  destruct (take_leaders (oldk st) sel') as [leadk'|] eqn:Hlead';
    [|discriminate].
  destruct (select_in_range _ _ _ _ Hsel) as [Hne' _].
  destruct (leaders_shape _ _ _ _ _ _ _ _ _ _ _ Hcontract Hr Hne' Hlead')
    as [_ [Hshape' [_ Hsize']]].
  assert (forallb (fun l => Z.of_nat (length l) =? norm st + 1 - 1) leadk' = true)
    as Hb.
  { apply forallb_forall. intros l Hl. rewrite Forall_forall in Hshape'.
    destruct (Hshape' l Hl) as [_ Hlen0]. apply Z.eqb_eq. exact Hlen0. }
  rewrite Hb. simpl negb. cbv iota.
  destruct (Z.ltb_spec
              (Z.of_nat (length sel') * (nsnps - (norm st + 1) + 1) * (norm st + 1))
              0) as [Hneg|_]; [lia | discriminate].
Qed.

Lemma leaders_form_an_array_witness :
  length [[0]; [1]; [2]; [3]] = length [0%nat; 1%nat; 2%nat; 3%nat] /\
  Forall (fun l => canonical 4 l /\
                   Z.of_nat (length l) = norm upto1_level1 + 1 - 1)
         [[0]; [1]; [2]; [3]] /\
  norm upto1_level1 <= 4 /\
  0 <= Z.of_nat (length [0%nat; 1%nat; 2%nat; 3%nat])
       * (4 - (norm upto1_level1 + 1) + 1) * (norm upto1_level1 + 1) /\
  body unit score_upto1 create_zstates 4 (49 # 50) tt upto1_level1
  <> Raise ValueError.
Proof.
  apply (leaders_form_an_array
           unit score_upto1 create_zstates 4 3 (49 # 50) tt
           [[[]]; singletons 4] upto1_level1
           [0%nat; 1%nat; 2%nat; 3%nat] [[0]; [1]; [2]; [3]]).
  - exact create_zstates_contract.
  - apply reach_init. reflexivity.
  - discriminate.
  - reflexivity.
Defined.

(** ** The empty universe *)

(** With no SNP ([nsnps <= 0]) and [cmax > 1], [create] calls the scorer
    once, on the empty state alone, and generates nothing: it returns the
    collection [[[]]] or raises [IndexError].  It raises when the scorer
    returns nothing ([posterior[0]], line 58); otherwise the leader pool is
    empty, [prob] is the scorer's whole answer, and [create] raises exactly
    when neither [break] is taken in the first iteration (the stopping
    check does not fire and the selection is not empty): every selected
    index is then outside the empty leader pool. *)
Theorem empty_universe_returns_or_raises
        (hyper : Type) (score : hyper -> list State -> list Q)
        (zc : Z -> Z -> Z -> list State -> list State)
        (nsnps cmax : Z) (target : Q) (hp : hyper) :
  nsnps <= 0 -> 1 < cmax ->
  (create hyper score zc nsnps cmax target hp false
   = Some (Returned [[]], [[[]]]) \/
   create hyper score zc nsnps cmax target hp false
   = Some (Raised IndexError, [[[]]])) /\
  (score hp [[]] = [] ->
   create hyper score zc nsnps cmax target hp false
   = Some (Raised IndexError, [[[]]])) /\
  (forall st,
      init hyper score nsnps hp = Some st ->
      oldk st = [] /\
      prob st = score hp [[]] /\
      (create hyper score zc nsnps cmax target hp false
       = Some (Raised IndexError, [[[]]]) <->
       stopping_check target st = false /\
       select (prob st) (probsum st) target <> None)).
Proof.
  intros Hn Hc.
  assert ([[]] ++ singletons nsnps = [[]]) as Hz0
      by (rewrite singletons_nonpos by assumption; reflexivity).
  assert (forall st, init hyper score nsnps hp = Some st ->
                     zstates st = [[]] /\ calls st = [[[]]] /\ oldk st = [] /\
                     norm st < cmax /\
                     reach hyper score zc nsnps cmax target hp
                           [[[]]; singletons nsnps] st) as Hinit.
  { intros st Hi. pose proof (reach_init hyper score zc nsnps cmax target hp st Hi).
    apply init_Some in Hi. destruct Hi as [Hz [Ho [_ [_ [_ [Hnorm Hcalls]]]]]].
    rewrite Hcalls, Hz, Ho, Hz0, Hnorm, singletons_nonpos by assumption.
    repeat split; try reflexivity; try lia.
    rewrite singletons_nonpos in H by assumption. exact H. }
  split; [|split].
  - destruct (init hyper score nsnps hp) as [st|] eqn:Hi.
    + destruct (Hinit st eq_refl) as [Hz [Hcalls [Ho [Hlt Hr]]]].
      destruct (body_empty_pool hyper score zc nsnps target hp st Ho)
        as [Hb|[Hb _]].
      * left. rewrite (reach_break _ _ _ _ _ _ _ _ _ Hr Hlt Hb), Hz, Hcalls.
        reflexivity.
      * right. rewrite (reach_raise _ _ _ _ _ _ _ _ _ _ Hr Hlt Hb), Hcalls.
        reflexivity.
    + right. rewrite (create_init_fails _ _ _ _ _ _ _ Hc Hi), Hz0. reflexivity.
  - intros Hs0.
    assert (init hyper score nsnps hp = None) as Hi
        by (unfold init; rewrite Hz0, Hs0; reflexivity).
    rewrite (create_init_fails _ _ _ _ _ _ _ Hc Hi), Hz0. reflexivity.
  - intros st Hi.
    destruct (Hinit st Hi) as [Hz [Hcalls [Ho [Hlt Hr]]]].
    pose proof (init_Some _ _ _ _ _ Hi) as [_ [_ [Hp _]]].
    split; [exact Ho|]. split; [rewrite Hp, Ho, Hz; reflexivity|].
    split.
    + intros Hraise.
      destruct (body_empty_pool hyper score zc nsnps target hp st Ho)
        as [Hb|[_ [Hcheck [sel [Hsel _]]]]].
      * rewrite (reach_break _ _ _ _ _ _ _ _ _ Hr Hlt Hb) in Hraise.
        discriminate Hraise.
      * split; [exact Hcheck | congruence].
    + intros [Hcheck Hsome].
      destruct (select (prob st) (probsum st) target) as [sel|] eqn:Hsel;
        [|congruence].
      destruct (select_in_range _ _ _ _ Hsel) as [Hne _].
      assert (take_leaders (oldk st) sel = None) as Hnone
          by (rewrite Ho; apply take_leaders_nil; assumption).
      rewrite (reach_raise _ _ _ _ _ _ _ _ _ _ Hr Hlt
                 (body_index_error _ _ _ _ _ _ _ sel Hcheck Hsel Hnone)).
      rewrite Hcalls. reflexivity.
Qed.

Lemma empty_universe_returns_or_raises_witness :
  (create unit score_one create_zstates 0 2 (1 # 2) tt false
   = Some (Returned [[]], [[[]]]) \/
   create unit score_one create_zstates 0 2 (1 # 2) tt false
   = Some (Raised IndexError, [[[]]])) /\
  (score_one tt [[]] = [] ->
   create unit score_one create_zstates 0 2 (1 # 2) tt false
   = Some (Raised IndexError, [[[]]])) /\
  (forall st,
      init unit score_one 0 tt = Some st ->
      oldk st = [] /\
      prob st = score_one tt [[]] /\
      (create unit score_one create_zstates 0 2 (1 # 2) tt false
       = Some (Raised IndexError, [[[]]]) <->
       stopping_check (1 # 2) st = false /\
       select (prob st) (probsum st) (1 # 2) <> None)).
Proof.
  apply (empty_universe_returns_or_raises
           unit score_one create_zstates 0 2 (1 # 2) tt); lia.
Defined.

(** ** The selection and the target *)

(** Asking for a smaller share of the score mass never selects a state
    that the larger share leaves out: if the selection succeeds for one
    target value, it succeeds for every value giving a smaller
    [targ = probsum * target] (for [probsum >= 0], every smaller [target]),
    and selects a subset of the indices. *)
Theorem selection_grows_with_target
        (prob : list Q) (probsum target1 target2 : Q) (sel2 : list nat) :
  (probsum * target1 <= probsum * target2)%Q ->
  select prob probsum target2 = Some sel2 ->
  exists sel1,
    select prob probsum target1 = Some sel1 /\
    incl sel1 sel2 /\
    (length sel1 <= length sel2)%nat.
Proof.
  intros Hle H2.
  destruct (select_Some _ _ _ _ H2) as [n2 [c2 [Hsel2 [Hc2 [Hlt2 _]]]]].
  destruct (select prob probsum target1) as [sel1|] eqn:H1.
  - exists sel1. split; [reflexivity|].
    destruct (select_Some _ _ _ _ H1) as [n1 [c1 [Hsel1 [Hc1 [_ Hmin1]]]]].
    assert (n1 <= n2)%nat as Hn.
    { destruct (Nat.le_gt_cases n1 n2) as [Hn|Hn]; [assumption|]. exfalso.
      pose proof (Hmin1 n2 c2 Hn Hc2) as Hc.
      apply (Qlt_irrefl c2).
      eapply Qle_lt_trans; [|exact Hlt2]. eapply Qle_trans; eassumption. }
    assert (incl sel1 sel2) as Hincl.
    { intros i Hi. rewrite Hsel1 in Hi. rewrite Hsel2.
      apply (Permutation_in _ (np_sort_perm _)) in Hi.
      apply (Permutation_in _ (Permutation_sym (np_sort_perm _))).
      replace (S n1) with (Nat.min (S n1) (S n2)) in Hi by lia.
      rewrite <- firstn_firstn in Hi. eapply In_firstn; eassumption. }
    split; [exact Hincl|].
    destruct (select_length _ _ _ _ H1) as [_ [m1 [L1 E1]]].
    destruct (select_length _ _ _ _ H2) as [_ [m2 [L2 E2]]].
    assert (NoDup sel1) as Hnd.
    { rewrite Hsel1.
      apply (Permutation_NoDup (Permutation_sym (np_sort_perm _))).
      assert (NoDup (rev (np_argsort prob))) as Hnd'
          by (apply (Permutation_NoDup (Permutation_sym (ranking_perm prob)));
              apply seq_NoDup).
      rewrite <- (firstn_skipn (S n1)) in Hnd'.
      apply NoDup_app_remove_r in Hnd'. exact Hnd'. }
    apply NoDup_incl_length; assumption.
  - exfalso. rewrite select_None in H1. specialize (H1 n2 c2 Hc2).
    apply (Qlt_irrefl c2).
    eapply Qle_lt_trans; [|exact Hlt2]. eapply Qle_trans; eassumption.
Qed.

Lemma selection_grows_with_target_witness :
  exists sel1,
    select [1 # 2; 3; 1; 3; 2]%Q (19 # 2) (1 # 4) = Some sel1 /\
    incl sel1 [1%nat; 3%nat] /\
    (length sel1 <= length [1%nat; 3%nat])%nat.
Proof.
  apply (selection_grows_with_target
           [1 # 2; 3; 1; 3; 2]%Q (19 # 2)%Q (1 # 4)%Q (1 # 2)%Q [1%nat; 3%nat]).
  - discriminate.
  - reflexivity.
Defined.
